(** * Hybrid JSON translation: post-processing and quality scoring

    A shallow embedding of [hybrid_translator.py]: the terminology
    matcher, the quality scorer, the post-processor and the
    structure-preserving translation driver, with the neural model
    abstracted as a function from text to text.

    Text.  A Python [str] is modelled as a [list ascii].  Code points
    0..127 carry the character classes Python gives them ([str.isspace],
    the [\w] and [\s] classes of [re], [str.lower], [str.upper]), so on
    text of 7-bit characters ([isascii]) the model computes what Python
    computes.  Beyond that it is an approximation: code points 128..255
    stand for caseless letters (word characters that are not whitespace
    and that [lower] and [upper] leave alone), and a literal such as
    [lit "dünya"] is read as its UTF-8 bytes, each of which falls in that
    class.  Python's case mappings of letters outside ASCII, the
    whitespace characters outside ASCII and the letters that
    [re.IGNORECASE] identifies with ASCII ones are not modelled; a
    statement that depends on them is made for 7-bit text.

    Numbers.  The score is the Python float [100.0] reduced by 20, 15 and
    10 or reset to [0]; every value it takes is an integer, so it is
    modelled in [Z].  Confidences are the decimal constants of the source,
    kept as rationals.

    Replacements.  [re.sub] reads a replacement string as a template in
    which only the backslash is special.  The model inserts the
    replacement as it stands, which is what [re.sub] does with a
    replacement that holds no backslash ([no_backslash]); the terms of
    [common_fixes] hold none, and a statement that depends on the text
    inserted for a dictionary term asks the same of that term. *)

From Stdlib Require Import ZArith QArith Ascii String.
From stdpp Require Import base option list gmap strings.

Local Open Scope list_scope.

(** ** Characters and text *)

Abbreviation str := (list ascii).

Definition lit (s : string) : str := list_ascii_of_string s.

Definition code (c : ascii) : N := N_of_ascii c.

Definition in_range (lo hi : N) (c : ascii) : bool :=
  ((lo <=? code c) && (code c <=? hi))%N.

(** [str.isspace] on 7-bit characters: TAB, LF, VT, FF, CR, the four
    separators 0x1c..0x1f and the space. *)
Definition is_space (c : ascii) : bool :=
  in_range 9 13 c || in_range 28 32 c.

Definition is_az (c : ascii) : bool := in_range 97 122 c.
Definition is_AZ (c : ascii) : bool := in_range 65 90 c.
Definition is_digit (c : ascii) : bool := in_range 48 57 c.

(** The [\w] class of [re] for [str] patterns. *)
Definition is_word (c : ascii) : bool :=
  is_az c || is_AZ c || is_digit c || (code c =? 95)%N || (128 <=? code c)%N.

Definition lower_char (c : ascii) : ascii :=
  if is_AZ c then ascii_of_N (code c + 32) else c.

Definition upper_char (c : ascii) : ascii :=
  if is_az c then ascii_of_N (code c - 32) else c.

Definition lower (s : str) : str := map lower_char s.
Definition upper (s : str) : str := map upper_char s.

Definition ascii_eqb (a b : ascii) : bool := (code a =? code b)%N.

(** [s.startswith(p)] and the [IGNORECASE] variant used by [re]. *)
Fixpoint startswith (p s : str) : bool :=
  match p, s with
  | [], _ => true
  | a :: p', b :: s' => ascii_eqb a b && startswith p' s'
  | _ :: _, [] => false
  end.

Fixpoint startswith_ci (p s : str) : bool :=
  match p, s with
  | [], _ => true
  | a :: p', b :: s' => ascii_eqb (lower_char a) (lower_char b) && startswith_ci p' s'
  | _ :: _, [] => false
  end.

Definition endswith (p s : str) : bool := startswith (rev p) (rev s).

(** [p in s] for strings. *)
Fixpoint contains (p s : str) : bool :=
  startswith p s ||
  match s with
  | [] => false
  | _ :: s' => contains p s'
  end.

(** [str.lstrip], [str.rstrip], [str.strip] with no argument. *)
Fixpoint lstrip (s : str) : str :=
  match s with
  | [] => []
  | c :: r => if is_space c then lstrip r else s
  end.

Definition rstrip (s : str) : str := rev (lstrip (rev s)).
Definition strip (s : str) : str := rstrip (lstrip s).

(** [str.split()] with no argument: maximal runs of non-space characters. *)
Fixpoint split_ws_aux (cur : str) (s : str) : list str :=
  match s with
  | [] => match cur with [] => [] | _ => [rev cur] end
  | c :: r =>
    if is_space c
    then match cur with [] => split_ws_aux [] r | _ => rev cur :: split_ws_aux [] r end
    else split_ws_aux (c :: cur) r
  end.

Definition split_ws (s : str) : list str := split_ws_aux [] s.

(** [sep.join(parts)]. *)
Fixpoint join (sep : str) (parts : list str) : str :=
  match parts with
  | [] => []
  | [p] => p
  | p :: ps => p ++ sep ++ join sep ps
  end.

(** ** Regular-expression scanning

    [re.sub], [re.findall] and [re.split] all walk the text from left to
    right, try the pattern at the current position and, after a match,
    resume behind it.  A pattern is given by its matcher: from the
    character before the current position ([None] at the start of the
    text) and the rest of the text, the length of the match that starts
    here, if there is one. *)

Definition matcher := option ascii -> str -> option nat.

Inductive seg :=
| Lit (c : ascii)
| Hit (m : str).

Fixpoint scan_from (m : matcher) (fuel : nat) (prev : option ascii) (s : str) : list seg :=
  match s with
  | [] => match m prev [] with Some _ => [Hit []] | None => [] end
  | a :: r =>
    match fuel with
    | 0 => map Lit s
    | S f =>
      match m prev s with
      | None => Lit a :: scan_from m f (Some a) r
      | Some 0 => Hit [] :: Lit a :: scan_from m f (Some a) r
      | Some (S k) =>
        Hit (take (S k) s) :: scan_from m f (last (take (S k) s)) (drop (S k) s)
      end
    end
  end.

Definition re_scan (m : matcher) (s : str) : list seg :=
  scan_from m (length s) None s.

(** [re.sub(pattern, repl, text)] with [repl] a function of the matched
    text (a constant function for a replacement string). *)
Definition render (repl : str -> str) (x : seg) : str :=
  match x with
  | Lit c => [c]
  | Hit t => repl t
  end.

Definition re_sub (m : matcher) (repl : str -> str) (s : str) : str :=
  concat (map (render repl) (re_scan m s)).

(** [re.findall(pattern, text)] for a pattern without groups. *)
Definition re_findall (m : matcher) (s : str) : list str :=
  omap (fun x => match x with Hit t => Some t | Lit _ => None end) (re_scan m s).

(** [re.split(pattern, text)] for a pattern that is one capturing group:
    the texts between the matches alternate with the matches, and empty
    texts are kept. *)
Fixpoint split_segs (cur : str) (l : list seg) : list str :=
  match l with
  | [] => [rev cur]
  | Lit c :: l' => split_segs (c :: cur) l'
  | Hit t :: l' => rev cur :: t :: split_segs [] l'
  end.

Definition re_split (m : matcher) (s : str) : list str :=
  split_segs [] (re_scan m s).

(** *** The patterns of the source *)

(** [\b] between the character before and the character after. *)
Definition word_of (c : option ascii) : bool :=
  match c with Some x => is_word x | None => false end.

Definition boundary (before after : option ascii) : bool :=
  xorb (word_of before) (word_of after).

(** [re.escape(w)] under [re.IGNORECASE]. *)
Definition m_literal_ci (w : str) : matcher :=
  fun _ s => if startswith_ci w s then Some (length w) else None.

(** [r'\b' + re.escape(w) + r'\b'] under [re.IGNORECASE]. *)
Definition m_word_ci (w : str) : matcher :=
  fun prev s =>
    let matched := take (length w) s in
    let before_end := match last matched with Some c => Some c | None => prev end in
    if boundary prev (head s)
       && startswith_ci w s
       && boundary before_end (head (drop (length w) s))
    then Some (length w) else None.

(** [r'<[^>]+>'] and [r'<[^>]*>']: a [<], the characters up to the next
    [>] (at least [least] of them), and that [>]. *)
Fixpoint until_gt (s : str) : option nat :=
  match s with
  | [] => None
  | c :: r => if ascii_eqb c ">" then Some 0 else S <$> until_gt r
  end.

Definition m_tag (least : nat) : matcher :=
  fun _ s =>
    match s with
    | c :: r =>
      if ascii_eqb c "<" then
        match until_gt r with
        | Some n => if decide (least <= n) then Some (S (S n)) else None
        | None => None
        end
      else None
    | [] => None
    end.

(** [r'(^|[.!?]\s+)([a-z])']. *)
Definition is_stop (c : ascii) : bool :=
  ascii_eqb c "." || ascii_eqb c "!" || ascii_eqb c "?".

Fixpoint spaces_then_az (seen : nat) (s : str) : option nat :=
  match s with
  | [] => None
  | c :: r =>
    if is_space c then spaces_then_az (S seen) r
    else if is_az c && negb (seen =? 0) then Some (S seen) else None
  end.

Definition m_sentence_start : matcher :=
  fun prev s =>
    match s with
    | [] => None
    | c :: r =>
      if (match prev with None => is_az c | Some _ => false end) then Some 1
      else if is_stop c then S <$> spaces_then_az 0 r else None
    end.

(** ** Terminology dictionary

    The JSON file [terminology_dict.json]: the two term tables under
    [admin_ui_terms] and, under [quality_patterns.common_mistakes], for a
    target language the correct terms with their known wrong variants, in
    the order of the file.  A missing file or key is an empty table. *)

Record terminology := {
  turkish_to_english : gmap str str;
  english_to_german : gmap str str;
  common_mistakes : gmap str (list (str * list str))
}.

Definition empty_terminology : terminology :=
  {| turkish_to_english := ∅; english_to_german := ∅; common_mistakes := ∅ |}.

Definition turkish : str := lit "turkish".
Definition english : str := lit "english".
Definition german : str := lit "german".

(** ** QualityChecker *)

Record issue := {
  itype : str;
  wrong_term : option str;
  correct_term : option str;
  confidence : Q
}.

Record quality := {
  score : Z;
  issues : list issue;
  needs_review : bool
}.

Definition common_mistake (wrong correct : str) : issue :=
  {| itype := lit "common_mistake"; wrong_term := Some wrong;
     correct_term := Some correct; confidence := 9 # 10 |}.

Definition plain_issue (ty : str) (c : Q) : issue :=
  {| itype := ty; wrong_term := None; correct_term := None; confidence := c |}.

Definition empty_translation : issue := plain_issue (lit "empty_translation") 1.
Definition too_short : issue := plain_issue (lit "too_short") (7 # 10).
Definition html_mismatch : issue := plain_issue (lit "html_mismatch") (8 # 10).

Definition check_common_mistakes (t : terminology) (text target_lang : str) : list issue :=
  let common := default [] (common_mistakes t !! target_lang) in
  let text_lower := lower text in
  flat_map (fun '(correct, wrong_variants) =>
    flat_map (fun wrong =>
      if contains (lower wrong) text_lower
      then [common_mistake wrong correct] else []) wrong_variants) common.

(** The running [score] and [issues] of [calculate_quality_score] before
    the result is built.  [len(translated) < len(original) * 0.2] is
    written [5 * len(translated) < len(original)]: the product with the
    double nearest to 0.2 rounds to a value on the same side of every
    integer as the exact fifth, for every length a text can have. *)
Definition accumulate_quality (t : terminology) (original translated target_lang : str)
  : Z * list issue :=
  let score := 100%Z in
  let issues := [] in
  let mistakes := check_common_mistakes t translated target_lang in
  let '(score, issues) :=
    fold_left (fun '(sc, iss) mistake => ((sc - 20)%Z, iss ++ [mistake]))
              mistakes (score, issues) in
  let '(score, issues) :=
    if bool_decide (strip translated = [])
    then (0%Z, issues ++ [empty_translation]) else (score, issues) in
  let '(score, issues) :=
    if (5 * Z.of_nat (length translated) <? Z.of_nat (length original))%Z
    then ((score - 15)%Z, issues ++ [too_short]) else (score, issues) in
  let orig_tags : gset str := list_to_set (re_findall (m_tag 1) original) in
  let trans_tags : gset str := list_to_set (re_findall (m_tag 1) translated) in
  if bool_decide (orig_tags ≠ trans_tags)
  then ((score - 10)%Z, issues ++ [html_mismatch]) else (score, issues).

Definition calculate_quality_score (t : terminology) (original translated target_lang : str)
  : quality :=
  let '(score, issues) := accumulate_quality t original translated target_lang in
  {| score := Z.max 0 score; issues := issues; needs_review := (score <? 70)%Z |}.

(** ** TerminologyTranslator *)

Definition get_term_translation (t : terminology) (text source_lang target_lang : str)
  : option str :=
  if bool_decide (source_lang = turkish ∧ target_lang = english)
  then turkish_to_english t !! lower text
  else if bool_decide (source_lang = english ∧ target_lang = german)
  then english_to_german t !! lower text
  else None.

(** Truth value of an [Optional[str]]: [None] and [""] are false. *)
Definition truthy (o : option str) : bool :=
  match o with
  | Some (_ :: _) => true
  | _ => false
  end.

(** [re.sub(r'[^\w\s]', '', word).lower()]. *)
Definition clean_word (word : str) : str :=
  lower (filter (fun c => is_word c || is_space c) word).

Definition translate_with_terminology (t : terminology) (text source_lang target_lang : str)
  : str * bool :=
  let term_translation := get_term_translation t text source_lang target_lang in
  if truthy term_translation then (default [] term_translation, true)
  else
    let words := split_ws text in
    let '(translated_words, has_terminology) :=
      if decide (1 < length words) then
        fold_left (fun '(acc, has) word =>
          let term_trans := get_term_translation t (clean_word word) source_lang target_lang in
          if truthy term_trans then (acc ++ [default [] term_trans], true)
          else (acc ++ [word], has)) words ([], false)
      else ([], false) in
    if has_terminology then (join (lit " ") translated_words, true)
    else (text, false).

(** ** PostProcessor *)

Definition fix_common_mistakes (t : terminology) (text target_lang : str) : str :=
  let mistakes := check_common_mistakes t text target_lang in
  fold_left (fun text mistake =>
    let wrong := default [] (wrong_term mistake) in
    let correct := default [] (correct_term mistake) in
    re_sub (m_literal_ci wrong) (fun _ => correct) text) mistakes text.

(** The table [common_fixes], in the order of the source. *)
Definition common_fixes : list (str * str) :=
  [ (lit "introduction", lit "login");
    (lit "exit", lit "logout");
    (lit "mercenary kurds", lit "exchange rates");
    (lit "bayiers", lit "dealers");
    (lit "varient", lit "variant");
    (lit "copyed", lit "copied");
    (lit "absorptions", lit "subscriptions");
    (lit "resorptionen", lit "abonnements") ].

Definition lower_items (m : gmap str str) : gmap str str :=
  list_to_map (map (fun '(k, v) => (lower k, lower v)) (map_to_list m)).

Definition apply_fixes (fixes : list (str * str)) (text : str) : str :=
  let text_lower := lower text in
  fold_left (fun text '(wrong, correct) =>
    if contains wrong text_lower
    then re_sub (m_word_ci wrong) (fun _ => correct) text
    else text) fixes text.

(** [reverse_terminology] is built from the dictionary for the language
    pair, as in the source, and the loop over [common_fixes] never reads
    it. *)
Definition apply_terminology_fixes (t : terminology) (text source_lang target_lang : str)
  : str :=
  let reverse_terminology : gmap str str :=
    if bool_decide (source_lang = turkish ∧ target_lang = english)
    then lower_items (turkish_to_english t)
    else if bool_decide (source_lang = english ∧ target_lang = german)
    then lower_items (english_to_german t)
    else ∅ in
  apply_fixes common_fixes text.

(** [m.group(1) + m.group(2).upper()]: group 2 is the last character of
    the match. *)
Definition upper_last (m : str) : str :=
  take (length m - 1) m ++ upper (drop (length m - 1) m).

Definition normalize_capitalization (text : str) : str :=
  re_sub m_sentence_start upper_last text.

Record translation := {
  original : str;
  raw_translation : str;
  processed_translation : str;
  quality_of : quality;
  improved : bool;
  method : option str
}.

Definition process_translation (t : terminology)
    (original translated source_lang target_lang : str) : translation :=
  let processed := translated in
  let processed := fix_common_mistakes t processed target_lang in
  let processed := apply_terminology_fixes t processed source_lang target_lang in
  let processed := normalize_capitalization processed in
  let quality := calculate_quality_score t original processed target_lang in
  {| original := original;
     raw_translation := translated;
     processed_translation := processed;
     quality_of := quality;
     improved := bool_decide (processed ≠ translated);
     method := None |}.

(** ** HybridTranslator

    [model] stands for one tokenizer and model pair: the text handed to
    the tokenizer goes in, the decoded output comes out. *)

#[local] Unset Elimination Schemes.
Inductive json :=
| JNull
| JBool (b : bool)
| JInt (n : Z)
| JFloat (q : Q)
| JString (s : str)
| JArray (items : list json)
| JObject (members : list (str * json)).
#[local] Set Elimination Schemes.

Section Hybrid.
Variable t : terminology.
Variable model : str -> str.

Definition translate_part (translated_parts : list str) (part : str) : list str :=
  if bool_decide (part = []) then translated_parts
  else if startswith (lit "<") part && endswith (lit ">") part
  then translated_parts ++ [part]
  else
    let clean_text := strip part in
    if bool_decide (clean_text ≠ []) then
      let translated := strip (model clean_text) in
      let translated :=
        if startswith (lit " ") part then lit " " ++ translated else translated in
      let translated :=
        if endswith (lit " ") part then translated ++ lit " " else translated in
      translated_parts ++ [translated]
    else translated_parts ++ [part].

Definition translate_text_with_html (text : str) : str :=
  if negb (contains (lit "<") text) then strip (model text)
  else
    let parts := re_split (m_tag 0) text in
    let translated_parts := fold_left translate_part parts [] in
    concat translated_parts.

Definition translate_text_hybrid (text source_lang target_lang : str) : translation :=
  let model_translation :=
    if contains (lit "<") text then translate_text_with_html text
    else strip (model text) in
  let result := process_translation t text model_translation source_lang target_lang in
  {| original := original result;
     raw_translation := raw_translation result;
     processed_translation := processed_translation result;
     quality_of := quality_of result;
     improved := improved result;
     method := Some (lit "model+terminology_postprocess") |}.

Fixpoint translate_json_hybrid (source_lang target_lang : str) (data : json) : json :=
  match data with
  | JObject members =>
    JObject (map (fun '(k, v) => (k, translate_json_hybrid source_lang target_lang v)) members)
  | JArray items =>
    JArray (map (translate_json_hybrid source_lang target_lang) items)
  | JString s =>
    JString (processed_translation (translate_text_hybrid s source_lang target_lang))
  | other => other
  end.
End Hybrid.

(** ** Views used to state the properties *)

(** The shape of a document: the tree with its keys, lengths, order and
    non-string leaves, and every string leaf erased. *)
#[local] Unset Elimination Schemes.
Inductive shape :=
| SNull
| SBool (b : bool)
| SInt (n : Z)
| SFloat (q : Q)
| SString
| SArray (items : list shape)
| SObject (members : list (str * shape)).
#[local] Set Elimination Schemes.

Fixpoint shape_of (data : json) : shape :=
  match data with
  | JNull => SNull
  | JBool b => SBool b
  | JInt n => SInt n
  | JFloat q => SFloat q
  | JString _ => SString
  | JArray items => SArray (map shape_of items)
  | JObject members => SObject (map (fun '(k, v) => (k, shape_of v)) members)
  end.

(** The string leaves of a document, in document order. *)
Fixpoint string_leaves (data : json) : list str :=
  match data with
  | JString s => [s]
  | JArray items => flat_map string_leaves items
  | JObject members => flat_map (fun '(_, v) => string_leaves v) members
  | _ => []
  end.

(** The conditions of the scoring rubric. *)
Definition is_blank (translated : str) : bool :=
  bool_decide (strip translated = []).

Definition is_too_short (original translated : str) : bool :=
  (5 * Z.of_nat (length translated) <? Z.of_nat (length original))%Z.

Definition tag_set (text : str) : gset str :=
  list_to_set (re_findall (m_tag 1) text).

Definition tags_differ (original translated : str) : bool :=
  bool_decide (tag_set original ≠ tag_set translated).

(** The (correct term, wrong variant) pairs known for a language, in the
    order of the dictionary. *)
Definition known_variants (t : terminology) (target_lang : str) : list (str * str) :=
  flat_map (fun '(correct, wrong_variants) => map (pair correct) wrong_variants)
           (default [] (common_mistakes t !! target_lang)).

Definition variant_occurs (text : str) (entry : str * str) : bool :=
  contains (lower entry.2) (lower text).

(** Number of positions of [s] at which [p] starts. *)
Fixpoint count_occurrences (p s : str) : nat :=
  (if startswith p s then 1 else 0) +
  match s with
  | [] => 0
  | _ :: s' => count_occurrences p s'
  end.

Definition rubric_score (hits : nat) (blank short differ : bool) : Z :=
  ((if blank then 0 else 100 - 20 * Z.of_nat hits)
   - (if short then 15 else 0) - (if differ then 10 else 0))%Z.

Definition rubric_issues (hits : list issue) (blank short differ : bool) : list issue :=
  hits ++ (if blank then [empty_translation] else [])
       ++ (if short then [too_short] else [])
       ++ (if differ then [html_mismatch] else []).

(** Sample dictionaries. *)
Definition dict_login : terminology :=
  {| turkish_to_english := ∅; english_to_german := ∅;
     common_mistakes := {[ english := [(lit "login", [lit "introduction"])] ]} |}.

Definition dict_bad : terminology :=
  {| turkish_to_english := ∅; english_to_german := ∅;
     common_mistakes := {[ english := [(lit "good", [lit "bad"])] ]} |}.

Definition thirty_x : str := replicate 30 "x"%char.

(** Token-level substitution as the specification words it: every
    whitespace-separated token is looked up after stripping punctuation
    and lowercasing, and replaced when the lookup succeeds. *)
Definition translate_token (t : terminology) (source_lang target_lang word : str)
  : str * bool :=
  let found := get_term_translation t (clean_word word) source_lang target_lang in
  if truthy found then (default [] found, true) else (word, false).

Definition token_substitution (t : terminology) (text source_lang target_lang : str)
  : str * bool :=
  let tokens := map (translate_token t source_lang target_lang) (split_ws text) in
  if existsb snd tokens then (join (lit " ") (map fst tokens), true) else (text, false).

(** A lookup that is treated as a miss: no entry, or an entry mapped to
    the empty string. *)
Definition absent_or_empty (t : terminology) (source_lang target_lang key : str) : Prop :=
  get_term_translation t key source_lang target_lang = None
  \/ get_term_translation t key source_lang target_lang = Some [].

Definition dict_cikis : terminology :=
  {| turkish_to_english := {[ lit "cikis" := lit "logout" ]};
     english_to_german := ∅; common_mistakes := ∅ |}.

Definition dict_empty_term : terminology :=
  {| turkish_to_english := {[ lit "cikis" := [] ]};
     english_to_german := ∅; common_mistakes := ∅ |}.

(** Scanning that resumes behind the character [prev], and the text
    [re.sub] builds from there. *)
Definition scan (m : matcher) (prev : option ascii) (s : str) : list seg :=
  scan_from m (length s) prev s.

Definition sub_from (m : matcher) (repl : str -> str) (prev : option ascii) (s : str) : str :=
  concat (map (render repl) (scan m prev s)).

(** Does the pattern match at some position of [s]? *)
Fixpoint matches_somewhere (m : matcher) (prev : option ascii) (s : str) : bool :=
  match s with
  | [] => bool_decide (is_Some (m prev []))
  | a :: r => bool_decide (is_Some (m prev s)) || matches_somewhere m (Some a) r
  end.

(** Capitalization as the specification words it.  [pre_rev] is the text
    before the current character, last character first.  A character is
    at a sentence start when nothing precedes it, or when what precedes it
    ends with one of [.!?] and at least one whitespace character. *)
Fixpoint leading_spaces (s : str) : nat :=
  match s with
  | c :: r => if is_space c then S (leading_spaces r) else 0
  | [] => 0
  end.

Definition after_stop (pre_rev : str) : bool :=
  match pre_rev with
  | c :: _ => is_space c && match lstrip pre_rev with d :: _ => is_stop d | [] => false end
  | [] => false
  end.

Definition sentence_start (pre_rev : str) : bool :=
  bool_decide (pre_rev = []) || after_stop pre_rev.

Fixpoint capitalize_from (pre_rev s : str) : str :=
  match s with
  | [] => []
  | c :: r =>
    (if is_az c && sentence_start pre_rev then upper_char c else c)
      :: capitalize_from (c :: pre_rev) r
  end.

Definition capitalize_sentences (s : str) : str := capitalize_from [] s.

(** What the scanner knows about the text already read: after a stop and
    whitespace, no lowercase letter can follow the whitespace still to
    come, or the pattern would have matched at the stop. *)
Definition scan_invariant (pre_rev s : str) : Prop :=
  match lstrip pre_rev with
  | d :: _ => is_stop d = true -> spaces_then_az (leading_spaces pre_rev) s = None
  | [] => True
  end.

(** Markup spans.  A text is cut into tags, the matches of [<[^>]*>]
    from left to right, and the stretches of text between them. *)
Inductive span :=
| Tag (s : str)
| Text (s : str).

Definition span_text (sp : span) : str :=
  match sp with
  | Tag s => s
  | Text s => s
  end.

Definition flush (cur : str) : list span :=
  match cur with
  | [] => []
  | _ => [Text (rev cur)]
  end.

Fixpoint spans_of (cur : str) (l : list seg) : list span :=
  match l with
  | [] => flush cur
  | Lit c :: l' => spans_of (c :: cur) l'
  | Hit t :: l' => flush cur ++ Tag t :: spans_of [] l'
  end.

Definition spans (text : str) : list span :=
  spans_of [] (re_scan (m_tag 0) text).

(** A tag is a [<], a body without [>], and a [>]. *)
Definition well_formed_tag (s : str) : bool :=
  match s with
  | c :: r => ascii_eqb c "<" && bool_decide (until_gt r = Some (pred (length r)))
  | [] => false
  end.

Definition span_ok (sp : span) : bool :=
  match sp with
  | Tag s => well_formed_tag s
  | Text s => negb (bool_decide (s = []))
  end.

Fixpoint alternating (l : list span) : bool :=
  match l with
  | [] => true
  | x :: r =>
    match x, r with
    | Text _, Text _ :: _ => false
    | _, _ => true
    end && alternating r
  end.

(** What a span becomes: a tag stays; a stretch of whitespace stays and
    the model is not called; any other stretch is trimmed and translated,
    and gets one space back on each side where it had one. *)
Definition emit (model : str -> str) (sp : span) : str :=
  match sp with
  | Tag s => s
  | Text s =>
    if bool_decide (strip s = []) then s
    else (if startswith (lit " ") s then lit " " else [])
           ++ strip (model (strip s))
           ++ (if endswith (lit " ") s then lit " " else [])
  end.

(** The test the source uses to recognise a tag among the parts. *)
Definition tag_like (part : str) : bool :=
  startswith (lit "<") part && endswith (lit ">") part.

Definition part_out (model : str -> str) (part : str) : list str :=
  if bool_decide (part = []) then []
  else if tag_like part then [part]
  else [emit model (Text part)].

Definition seg_text (x : seg) : str :=
  match x with
  | Lit c => [c]
  | Hit t => t
  end.

Definition is_gt (c : ascii) : bool := ascii_eqb c ">".

Definition seg_has_gt (l : list seg) : bool :=
  existsb (fun x => match x with Lit c => is_gt c | Hit _ => true end) l.

(** In a scan for tags every match is a well-formed tag, and behind a
    [<] that starts no tag there is no [>] any more. *)
Fixpoint segs_ok (l : list seg) : bool :=
  match l with
  | [] => true
  | Lit c :: l' => (negb (ascii_eqb c "<") || negb (seg_has_gt l')) && segs_ok l'
  | Hit t :: l' => well_formed_tag t && segs_ok l'
  end.

Definition text_ok (cur : str) (l : list seg) : Prop :=
  match rev cur with
  | c :: p => ascii_eqb c "<" = true -> existsb is_gt p = false /\ seg_has_gt l = false
  | [] => True
  end.

(** Whole-word occurrences.  [tail_ok u x s]: the text [s] continues with
    the pattern letters [u], case ignored, and a word boundary follows;
    [x] is the character before [s]. *)
Fixpoint tail_ok (u : str) (x : option ascii) (s : str) : bool :=
  match u with
  | [] => boundary x (head s)
  | u0 :: u' =>
    match s with
    | b :: s' => ascii_eqb (lower_char u0) (lower_char b) && tail_ok u' (Some b) s'
    | [] => false
    end
  end.

Definition occurs_at (w : str) (prev : option ascii) (s : str) : bool :=
  boundary prev (head s) && tail_ok w prev s.

Fixpoint occurs (w : str) (prev : option ascii) (s : str) : bool :=
  occurs_at w prev s ||
  match s with
  | [] => false
  | a :: r => occurs w (Some a) r
  end.

(** The text is free of whole-word occurrences of every wrong term. *)
Definition free_of (fixes : list (str * str)) (s : str) : bool :=
  forallb (fun '(wrong, _) => negb (occurs wrong None s)) fixes.

(** Two strings agree, case ignored, as far as the shorter one goes. *)
Definition compatible (u v : str) : bool :=
  startswith_ci u v || startswith_ci v u.

Definition first_is_word (w : str) : bool := word_of (head w).
Definition last_is_word (w : str) : bool := word_of (last w).

(** No whole-word occurrence of [w'] can start inside the replacement
    [c]; [pw] tells whether the character before is a word character. *)
Fixpoint inner_free (w' : str) (pw : bool) (c : str) : bool :=
  match c with
  | [] => true
  | c0 :: c' => (pw || negb (compatible w' c)) && inner_free w' (is_word c0) c'
  end.

(** No whole-word occurrence of a pattern can start before a replacement
    [c] and run into it; [u] is the rest of the pattern and [yw] tells
    whether its letter before [u] is a word character. *)
Fixpoint straddle_free (yw : bool) (u c : str) : bool :=
  match u with
  | [] => yw
  | u0 :: u' => (yw || negb (compatible u c)) && straddle_free (is_word u0) u' c
  end.

Definition pair_ok (w c w' : str) : bool :=
  first_is_word w && last_is_word w && last_is_word c
  && first_is_word w' && inner_free w' false c
  && straddle_free (first_is_word w') (tail w') c.

Definition is_lower (w : str) : bool := bool_decide (lower w = w).

Definition fixes_ok (fixes : list (str * str)) : bool :=
  forallb (fun '(w, c) =>
    is_lower w && forallb (fun '(w', _) => pair_ok w c w') fixes) fixes.

(** The loop of [apply_fixes] started from [s], the guard reading the
    lowercased original [text0]. *)
Definition apply_fixes_from (text0 : str) (fixes : list (str * str)) (s : str) : str :=
  fold_left (fun text '(wrong, correct) =>
    if contains wrong (lower text0)
    then re_sub (m_word_ci wrong) (fun _ => correct) text
    else text) fixes s.

Definition dict_log : terminology :=
  {| turkish_to_english := ∅; english_to_german := ∅;
     common_mistakes := {[ english := [(lit "logout", [lit "log"])] ]} |}.

(** The text a string leaf is replaced by. *)
Definition translate_leaf (t : terminology) (model : str -> str)
    (source_lang target_lang s : str) : str :=
  processed_translation (translate_text_hybrid t model s source_lang target_lang).

Definition dict_terms : terminology :=
  {| turkish_to_english :=
       {[ lit "giriş" := lit "login"; lit "çıkış" := lit "logout" ]};
     english_to_german := ∅; common_mistakes := ∅ |}.

(** ** Further views *)

(** A character-class skeleton: two texts that agree on which characters
    are whitespace and which are sentence stops. *)
Definition same_class (a b : ascii) : Prop :=
  is_space a = is_space b /\ is_stop a = is_stop b.

(** The document with a function applied to every string leaf. *)
Fixpoint json_map (f : str -> str) (data : json) : json :=
  match data with
  | JObject members => JObject (map (fun '(k, v) => (k, json_map f v)) members)
  | JArray items => JArray (map (json_map f) items)
  | JString s => JString (f s)
  | other => other
  end.

(** [translate_file_hybrid] without its file handling: [input] is what
    reading and parsing the input file gives, [None] when that raises; the
    result is the pair of documents dumped to [en_jsons_hybrid] and
    [de_jsons_hybrid], [None] when the function returns early. *)
Definition translate_file_hybrid (t : terminology) (tr_en_model en_de_model : str -> str)
    (input : option json) : option (json * json) :=
  match input with
  | None => None
  | Some original_data =>
    let english_data :=
      translate_json_hybrid t tr_en_model turkish english original_data in
    let german_data :=
      translate_json_hybrid t en_de_model english german english_data in
    Some (english_data, german_data)
  end.

Definition sample_settings : json :=
  JObject [ (lit "retries", JInt 3);
            (lit "flags", JArray [JBool true; JNull; JFloat (1 # 2)]) ].

(** [load_terminology]: [file] is the dictionary held by the file at
    [file_path], [None] when there is no such file; the source then
    reports it and goes on with an empty dictionary. *)
Definition load_terminology (file : option terminology) : terminology :=
  match file with
  | Some d => d
  | None => empty_terminology
  end.

(** Two characters that differ at most in letter case. *)
Definition same_letter (a b : ascii) : Prop := lower_char a = lower_char b.

(** A span the model is consulted for: a stretch of text that is not
    blank. *)
Definition needs_model (sp : span) : bool :=
  match sp with
  | Tag _ => false
  | Text s => negb (is_blank s)
  end.

Definition dict_empty_variant : terminology :=
  {| turkish_to_english := ∅; english_to_german := ∅;
     common_mistakes := {[ english := [(lit "OK", [[]])] ]} |}.

(** Tags as the scorer sees them.  [r'<[^>]+>'] finds the tags with a
    non-empty body; [<>] is no tag for it. *)
Definition has_lt (s : str) : bool := existsb (fun c => ascii_eqb c "<") s.

Definition tag_hit (x : seg) : option str :=
  match x with
  | Hit t => Some t
  | Lit _ => None
  end.

Definition real_tag (sp : span) : option str :=
  match sp with
  | Tag t => if decide (2 < length t) then Some t else None
  | Text _ => None
  end.

Definition real_tags (l : list span) : list str := omap real_tag l.

(** A span of the driver's output: a tag as it is, a text without [<]. *)
Definition piece_ok (sp : span) : bool :=
  match sp with
  | Tag t => well_formed_tag t
  | Text s => negb (has_lt s)
  end.

Definition image (model : str -> str) (sp : span) : span :=
  match sp with
  | Tag t => Tag t
  | Text s => Text (emit model (Text s))
  end.

(** A dictionary with the single entry [key -> value] in both term
    tables. *)
Definition single_entry (key value : str) : terminology :=
  {| turkish_to_english := {[ key := value ]};
     english_to_german := {[ key := value ]};
     common_mistakes := ∅ |}.

(** ** Plain text

    [str.isascii()]: every character is a 7-bit one.  On such text the
    character classes, the case mappings and the character counts of the
    model are Python's own. *)
Definition isascii (s : str) : bool := forallb (fun c => (code c <? 128)%N) s.

(** A replacement that [re.sub] inserts as it stands: no character of it
    is the backslash, code 92. *)
Definition no_backslash (s : str) : bool := negb (existsb (fun c => (code c =? 92)%N) s).

(** A dictionary whose correct terms and wrong variants for a language
    are 7-bit text, the correct terms without backslash. *)
Definition plain_dictionary (t : terminology) (target_lang : str) : bool :=
  forallb (fun e => isascii e.1 && no_backslash e.1 && isascii e.2)
          (known_variants t target_lang).

(** Capitalization of the first letter as the specification words it:
    the first character that is a letter is uppercased, wherever it
    stands. *)
Fixpoint upper_first_letter (s : str) : str :=
  match s with
  | [] => []
  | c :: r =>
    if is_az c || is_AZ c then upper_char c :: r else c :: upper_first_letter r
  end.

(** A document with string leaves, one of them with markup. *)
Definition sample_page : json :=
  JObject [ (lit "title", JString (lit "Hello"));
            (lit "body", JArray [JString (lit "<b>Hi</b> there"); JInt 2]) ].

(** * Properties *)

(** ** Document trees *)

Section JsonInduction.
Variable P : json -> Prop.
Hypothesis Hnull : P JNull.
Hypothesis Hbool : forall b, P (JBool b).
Hypothesis Hint : forall n, P (JInt n).
Hypothesis Hfloat : forall q, P (JFloat q).
Hypothesis Hstring : forall s, P (JString s).
Hypothesis Harray : forall items, Forall P items -> P (JArray items).
Hypothesis Hobject : forall members, Forall (fun kv => P kv.2) members -> P (JObject members).

Lemma json_ind : forall data, P data.
Proof.
  fix IH 1. intros [| b | n | q | s | items | members].
  - exact Hnull.
  - apply Hbool.
  - apply Hint.
  - apply Hfloat.
  - apply Hstring.
  - apply Harray. induction items as [| x xs IHxs]; constructor; [apply IH | exact IHxs].
  - apply Hobject. induction members as [| [k v] xs IHxs]; constructor; [apply IH | exact IHxs].
Qed.
End JsonInduction.

Section TreeShape.
Variable t : terminology.
Variable model : str -> str.
Variables source_lang target_lang : str.

(** C1. The output of [translate_json_hybrid] has the shape of its input
    (same keys in the same order, same lengths and element order, same
    non-string leaves), and its string leaves are, in order, the
    processed translations of the input's string leaves. *)
Theorem translate_json_hybrid_shape (data : json) :
  shape_of (translate_json_hybrid t model source_lang target_lang data) = shape_of data
  /\ string_leaves (translate_json_hybrid t model source_lang target_lang data)
     = map (translate_leaf t model source_lang target_lang) (string_leaves data).
Proof.
  induction data as [| b | n | q | s | items IH | members IH] using json_ind;
    simpl; try (split; reflexivity).
  - split.
    + f_equal. rewrite map_map. apply map_ext_Forall.
      eapply Forall_impl; [exact IH |]. by intros x [Hx _].
    + induction IH as [| x xs [_ Hx] _ IHxs]; simpl; [done |].
      by rewrite Hx, IHxs, map_app.
  - split.
    + f_equal. rewrite map_map. apply map_ext_Forall.
      eapply Forall_impl; [exact IH |]. intros [k v] [Hx _]; simpl in *. by rewrite Hx.
    + induction IH as [| [k v] xs [_ Hx] _ IHxs]; simpl in *; [done |].
      by rewrite Hx, IHxs, map_app.
Qed.
End TreeShape.

(** ** Quality scoring *)

Lemma fold_mistakes (mistakes : list issue) (sc : Z) (iss : list issue) :
  fold_left (fun '(sc, iss) mistake => ((sc - 20)%Z, iss ++ [mistake])) mistakes (sc, iss)
  = ((sc - 20 * Z.of_nat (length mistakes))%Z, iss ++ mistakes).
Proof.
  revert sc iss. induction mistakes as [| m ms IH]; intros sc iss; simpl fold_left.
  - f_equal; [simpl; lia | by rewrite app_nil_r].
  - rewrite IH. f_equal; [rewrite length_cons; lia | by rewrite <- app_assoc].
Qed.

(** The running score and issue list, rule by rule. *)
Lemma accumulate_quality_rubric (t : terminology) (original translated target_lang : str) :
  let hits := check_common_mistakes t translated target_lang in
  let blank := is_blank translated in
  let short := is_too_short original translated in
  let differ := tags_differ original translated in
  accumulate_quality t original translated target_lang
  = (rubric_score (length hits) blank short differ, rubric_issues hits blank short differ).
Proof.
  intros hits blank short differ. unfold accumulate_quality.
  rewrite fold_mistakes. fold hits. simpl app.
  unfold rubric_score, rubric_issues.
  subst blank short differ. unfold is_blank, is_too_short, tags_differ, tag_set.
  destruct (bool_decide (strip translated = []));
    destruct (5 * Z.of_nat (length translated) <? Z.of_nat (length original))%Z;
    destruct (bool_decide (_ ≠ _));
    rewrite ?app_nil_r, <- ?app_assoc; f_equal; lia.
Qed.

Lemma check_common_mistakes_variants (t : terminology) (text target_lang : str) :
  check_common_mistakes t text target_lang
  = map (fun e => common_mistake e.2 e.1)
        (filter (variant_occurs text) (known_variants t target_lang)).
Proof.
  unfold check_common_mistakes, known_variants.
  induction (default [] (common_mistakes t !! target_lang)) as [| [c ws] l IH]; [done |].
  simpl. rewrite filter_app, map_app, IH. f_equal.
  clear IH. induction ws as [| w ws IH]; [done |].
  simpl. rewrite filter_cons.
  destruct (contains (lower w) (lower text)) eqn:Hw.
  - rewrite decide_True by (unfold variant_occurs; simpl; rewrite Hw; exact I).
    simpl. by rewrite IH.
  - rewrite decide_False by (unfold variant_occurs; simpl; rewrite Hw; intros []).
    by rewrite IH.
Qed.

(** C2 (counterexample). A text that contains the wrong variant
    "introduction" twice loses 20 points and gets one issue, not 40 points
    and two issues. *)
Lemma repeated_variant_penalised_once :
  count_occurrences (lower (lit "introduction")) (lower (lit "introduction introduction")) = 2
  /\ accumulate_quality dict_login (lit "giris giris") (lit "introduction introduction") english
     = (80%Z, [common_mistake (lit "introduction") (lit "login")])
  /\ (100 - (accumulate_quality dict_login (lit "giris giris")
               (lit "introduction introduction") english).1 <> 20 * 2)%Z.
Proof. vm_compute. repeat split; congruence. Qed.

(** C2 (amended). The scorer appends one [common_mistake] issue with
    confidence 0.9, and subtracts 20, for every (correct term, wrong
    variant) pair of the target language whose variant occurs at least
    once as a case-insensitive substring of the translation: the penalty
    is 20 times the number of such pairs, whatever the number of
    occurrences, and never more than 20 times the number of known pairs. *)
Theorem common_mistake_penalty (t : terminology) (original translated target_lang : str) :
  let found := filter (variant_occurs translated) (known_variants t target_lang) in
  let hits := check_common_mistakes t translated target_lang in
  hits = map (fun e => common_mistake e.2 e.1) found
  /\ Forall (fun i => itype i = lit "common_mistake" /\ confidence i = 9 # 10) hits
  /\ length found <= length (known_variants t target_lang)
  /\ accumulate_quality t original translated target_lang
     = (rubric_score (length found) (is_blank translated)
          (is_too_short original translated) (tags_differ original translated),
        rubric_issues hits (is_blank translated)
          (is_too_short original translated) (tags_differ original translated)).
Proof.
  intros found hits. subst hits. rewrite check_common_mistakes_variants. fold found.
  split; [done |]. split.
  - apply Forall_forall. intros i Hi. apply list_elem_of_fmap in Hi as (e & -> & _). done.
  - split; [apply length_filter |].
    rewrite accumulate_quality_rubric, check_common_mistakes_variants. fold found.
    by rewrite length_map.
Qed.

(** C3. A translation that is empty after trimming scores exactly 0,
    needs review, and carries an [empty_translation] issue of confidence 1. *)
Theorem empty_translation_override (t : terminology) (original translated target_lang : str) :
  strip translated = [] ->
  let q := calculate_quality_score t original translated target_lang in
  score q = 0%Z /\ needs_review q = true
  /\ In empty_translation (issues q) /\ confidence empty_translation = 1%Q.
Proof.
  intros Hblank q. subst q. unfold calculate_quality_score.
  rewrite accumulate_quality_rubric. simpl.
  unfold is_blank. rewrite bool_decide_eq_true_2 by done.
  unfold rubric_score, rubric_issues.
  repeat split.
  - destruct (is_too_short _ _), (tags_differ _ _); lia.
  - apply Z.ltb_lt. destruct (is_too_short _ _), (tags_differ _ _); lia.
  - apply in_or_app. right. apply in_or_app. left. by left.
Qed.

Lemma empty_translation_override_witness :
  let q := calculate_quality_score dict_bad (lit "Herhangi bir metin") (lit "  ") english in
  score q = 0%Z /\ needs_review q = true
  /\ In empty_translation (issues q) /\ confidence empty_translation = 1%Q.
Proof. apply (empty_translation_override dict_bad). vm_compute. reflexivity. Defined.

(** C4 (counterexample). Putting the known wrong variant "bad" into a
    translation can raise the score: a blank translation scores 0 and the
    same three characters replaced by "bad" score 80; and when "bad" is
    already there and the text is too short, a second "bad" adds no
    penalty and lifts the too-short penalty, 65 becoming 80. *)
Lemma added_wrong_term_raises_score :
  In (lit "good", lit "bad") (known_variants dict_bad english)
  /\ score (calculate_quality_score dict_bad (lit "abc") (lit "   ") english) = 0%Z
  /\ score (calculate_quality_score dict_bad (lit "abc") (lit "bad") english) = 80%Z
  /\ score (calculate_quality_score dict_bad thirty_x (lit "bad") english) = 65%Z
  /\ score (calculate_quality_score dict_bad thirty_x (lit "bad" ++ lit "bad") english) = 80%Z
  /\ (score (calculate_quality_score dict_bad thirty_x (lit "bad") english)
      < score (calculate_quality_score dict_bad thirty_x (lit "bad" ++ lit "bad") english))%Z.
Proof. vm_compute. repeat split; auto. Qed.

(** C4 (amended). The score lies between 0 and 100, [needs_review] holds
    exactly when it is below 70, and of two translations of the same
    original on which the empty, too-short and tag rules fire alike, the
    one with at least as many common-mistake hits has the score that is
    not higher. *)
Theorem quality_score_bounds (t : terminology) (original translated translated' target_lang : str) :
  let q := calculate_quality_score t original translated target_lang in
  let q' := calculate_quality_score t original translated' target_lang in
  (0 <= score q <= 100)%Z
  /\ score q = Z.max 0 (accumulate_quality t original translated target_lang).1
  /\ (needs_review q = true <-> (score q < 70)%Z)
  /\ (is_blank translated' = is_blank translated ->
      is_too_short original translated' = is_too_short original translated ->
      tags_differ original translated' = tags_differ original translated ->
      length (check_common_mistakes t translated target_lang)
        <= length (check_common_mistakes t translated' target_lang) ->
      (score q' <= score q)%Z).
Proof.
  intros q q'. subst q q'. unfold calculate_quality_score.
  rewrite !accumulate_quality_rubric. simpl.
  unfold rubric_score. split; [| split; [| split]].
  - destruct (is_blank _), (is_too_short _ _), (tags_differ _ _); lia.
  - reflexivity.
  - rewrite Z.ltb_lt. lia.
  - intros -> -> -> Hhits.
    destruct (is_blank _), (is_too_short _ _), (tags_differ _ _); lia.
Qed.

Lemma quality_score_bounds_witness :
  (score (calculate_quality_score dict_bad (lit "abc") (lit "bad") english)
   <= score (calculate_quality_score dict_bad (lit "abc") (lit "xyz") english))%Z.
Proof.
  apply (proj2 (proj2 (proj2
           (quality_score_bounds dict_bad (lit "abc") (lit "xyz") (lit "bad") english))));
    vm_compute; first [reflexivity | lia].
Defined.

(** ** Terminology matching *)

Lemma fold_tokens (t : terminology) (source_lang target_lang : str)
    (words acc : list str) (has : bool) :
  fold_left (fun '(acc, has) word =>
      let term_trans := get_term_translation t (clean_word word) source_lang target_lang in
      if truthy term_trans then (acc ++ [default [] term_trans], true)
      else (acc ++ [word], has)) words (acc, has)
  = (acc ++ map fst (map (translate_token t source_lang target_lang) words),
     has || existsb snd (map (translate_token t source_lang target_lang) words)).
Proof.
  revert acc has. induction words as [| w ws IH]; intros acc has; simpl.
  - by rewrite app_nil_r, orb_false_r.
  - assert (Hw : translate_token t source_lang target_lang w
        = let found := get_term_translation t (clean_word w) source_lang target_lang in
          if truthy found then (default [] found, true) else (w, false)) by reflexivity.
    cbv zeta in Hw. rewrite Hw.
    destruct (truthy (get_term_translation t (clean_word w) source_lang target_lang));
      rewrite IH; cbn [fst snd]; rewrite <- app_assoc; simpl.
    + by rewrite orb_true_r.
    + done.
Qed.

Lemma truthy_absent (t : terminology) (source_lang target_lang key : str) :
  absent_or_empty t source_lang target_lang key ->
  truthy (get_term_translation t key source_lang target_lang) = false.
Proof. by intros [-> | ->]. Qed.

Lemma truthy_value (o : option str) :
  truthy o = true -> exists v, o = Some v /\ v <> [].
Proof. destruct o as [[| c v] |]; try done. intros _. by eexists. Qed.

Example exact_match_ignores_case :
  translate_with_terminology dict_terms (lit "Giriş") turkish english = (lit "login", true).
Proof. vm_compute. reflexivity. Qed.

Example word_level_substitution :
  translate_with_terminology dict_terms (lit "Lütfen çıkış yapın") turkish english
  = (lit "Lütfen logout yapın", true).
Proof. vm_compute. reflexivity. Qed.

Example unsupported_pair_is_absent :
  get_term_translation dict_terms (lit "giriş") turkish german = None.
Proof. vm_compute. reflexivity. Qed.

(** C5 (counterexample). The one-token text "cikis!" has no whole-string
    entry and its cleaned token "cikis" has one; the code returns the text
    unchanged with [False], where token-level substitution gives "logout"
    with [True]. *)
Lemma single_token_not_substituted :
  get_term_translation dict_cikis (lit "cikis!") turkish english = None
  /\ get_term_translation dict_cikis (clean_word (lit "cikis!")) turkish english
     = Some (lit "logout")
  /\ translate_with_terminology dict_cikis (lit "cikis!") turkish english
     = (lit "cikis!", false)
  /\ token_substitution dict_cikis (lit "cikis!") turkish english = (lit "logout", true).
Proof. vm_compute. repeat split. Qed.

(** C5 (amended). For a text with no usable whole-string entry, the code
    applies token-level substitution when the text has at least two
    whitespace-separated tokens, and returns the text unchanged with
    [False] when it has fewer. *)
Theorem translate_with_terminology_tokens (t : terminology) (text source_lang target_lang : str) :
  truthy (get_term_translation t text source_lang target_lang) = false ->
  translate_with_terminology t text source_lang target_lang
  = if decide (1 < length (split_ws text))
    then token_substitution t text source_lang target_lang
    else (text, false).
Proof.
  intros Hwhole. unfold translate_with_terminology. rewrite Hwhole.
  destruct (decide (1 < length (split_ws text))) as [Hmany | Hfew]; [| done].
  rewrite fold_tokens. simpl. unfold token_substitution.
  by destruct (existsb snd _).
Qed.

Lemma translate_with_terminology_tokens_witness :
  translate_with_terminology dict_cikis (lit "Lutfen cikis yapin.") turkish english
  = (lit "Lutfen logout yapin.", true).
Proof.
  rewrite (translate_with_terminology_tokens dict_cikis (lit "Lutfen cikis yapin.") turkish english);
    vm_compute; reflexivity.
Defined.

(** C10. A term mapped to the empty string counts as absent: when every
    lookup (the whole text and each cleaned token) is absent or empty, the
    text comes back unchanged with [False]; and whenever the flag is
    [True], the result is a non-empty whole-text entry or the tokens joined
    by spaces, each token being the original one or a non-empty entry. *)
Theorem empty_term_is_absent (t : terminology) (text source_lang target_lang : str) :
  let result := translate_with_terminology t text source_lang target_lang in
  (Forall (absent_or_empty t source_lang target_lang)
          (text :: map clean_word (split_ws text)) ->
   result = (text, false))
  /\ (result.2 = true ->
      (get_term_translation t text source_lang target_lang = Some result.1 /\ result.1 <> [])
      \/ exists tokens,
           result.1 = join (lit " ") tokens
           /\ Forall2 (fun word token =>
                token = word
                \/ (token <> []
                    /\ get_term_translation t (clean_word word) source_lang target_lang
                       = Some token))
              (split_ws text) tokens).
Proof.
  intros result. subst result. split.
  - intros Hall. apply Forall_cons in Hall as [Hwhole Htokens].
    unfold translate_with_terminology. rewrite (truthy_absent _ _ _ _ Hwhole).
    destruct (decide _); [| done]. rewrite fold_tokens. simpl.
    replace (existsb snd _) with false; [done |].
    symmetry. apply not_true_is_false. intros Hex.
    apply existsb_exists in Hex as ([w' b] & Hin & Hb). simpl in Hb. subst b.
    apply in_map_iff in Hin as (w & Hw & Hin).
    rewrite Forall_forall in Htokens.
    assert (Habs : absent_or_empty t source_lang target_lang (clean_word w)).
    { apply Htokens. apply list_elem_of_In. by apply in_map. }
    unfold translate_token in Hw. by rewrite (truthy_absent _ _ _ _ Habs) in Hw.
  - unfold translate_with_terminology.
    destruct (truthy (get_term_translation t text source_lang target_lang)) eqn:Hwhole.
    + intros _. left. apply truthy_value in Hwhole as (v & Hv & Hne). rewrite Hv. by simpl.
    + destruct (decide _); [| done]. rewrite fold_tokens. simpl.
      destruct (existsb snd _); [| done]. intros _. right. simpl.
      eexists. split; [reflexivity |].
      rewrite map_map. apply Forall2_fmap_r, Forall_Forall2_diag, Forall_forall.
      intros w _. unfold translate_token, compose. simpl.
      destruct (truthy (get_term_translation t (clean_word w) source_lang target_lang)) eqn:Hw.
      * right. apply truthy_value in Hw as (v & Hv & Hne). rewrite Hv. by simpl.
      * by left.
Qed.

Lemma empty_term_is_absent_witness :
  get_term_translation dict_empty_term (clean_word (lit "cikis,")) turkish english = Some []
  /\ translate_with_terminology dict_empty_term (lit "cikis, yapin") turkish english
     = (lit "cikis, yapin", false).
Proof.
  split; [vm_compute; reflexivity |].
  apply (proj1 (empty_term_is_absent dict_empty_term (lit "cikis, yapin") turkish english)).
  repeat (apply Forall_cons_2 || apply Forall_nil_2);
    vm_compute; first [left; reflexivity | right; reflexivity].
Defined.

(** ** Scanning *)

Lemma scan_from_fuel (m : matcher) (f1 f2 : nat) (prev : option ascii) (s : str) :
  length s <= f1 -> length s <= f2 ->
  scan_from m f1 prev s = scan_from m f2 prev s.
Proof.
  revert f2 prev s. induction f1 as [| f1 IH]; intros [| f2] prev [| a r] H1 H2;
    try reflexivity; simpl in H1, H2; try lia.
  simpl. destruct (m prev (a :: r)) as [[| k] |].
  - do 2 f_equal. apply IH; lia.
  - f_equal. apply IH; rewrite length_drop; lia.
  - f_equal. apply IH; lia.
Qed.

Lemma scan_nil (m : matcher) (prev : option ascii) :
  scan m prev [] = match m prev [] with Some _ => [Hit []] | None => [] end.
Proof. reflexivity. Qed.

Lemma scan_cons (m : matcher) (prev : option ascii) (a : ascii) (r : str) :
  scan m prev (a :: r)
  = match m prev (a :: r) with
    | None => Lit a :: scan m (Some a) r
    | Some 0 => Hit [] :: Lit a :: scan m (Some a) r
    | Some (S k) =>
      Hit (a :: take k r) :: scan m (last (a :: take k r)) (drop k r)
    end.
Proof.
  unfold scan. simpl.
  destruct (m prev (a :: r)) as [[| k] |]; try reflexivity.
  f_equal. apply scan_from_fuel; rewrite ?length_drop; lia.
Qed.

Lemma re_sub_sub_from (m : matcher) (repl : str -> str) (s : str) :
  re_sub m repl s = sub_from m repl None s.
Proof. reflexivity. Qed.

(** A pattern that matches nowhere leaves the text as it is. *)
Lemma sub_from_no_match (m : matcher) (repl : str -> str) (s : str) (prev : option ascii) :
  matches_somewhere m prev s = false -> sub_from m repl prev s = s.
Proof.
  revert prev. induction s as [| a r IH]; intros prev H; simpl in H.
  - unfold sub_from. rewrite scan_nil.
    destruct (m prev []); [| done]. by rewrite bool_decide_eq_true_2 in H.
  - apply orb_false_elim in H as [Hhere Hrest].
    unfold sub_from. rewrite scan_cons.
    destruct (m prev (a :: r)) as [n |].
    + by rewrite bool_decide_eq_true_2 in Hhere.
    + simpl. f_equal. by apply IH.
Qed.

(** ** Character classes *)

Lemma az_not_space (c : ascii) : is_az c = true -> is_space c = false.
Proof. destruct c as [[] [] [] [] [] [] [] []]; vm_compute; congruence. Qed.

Lemma az_not_stop (c : ascii) : is_az c = true -> is_stop c = false.
Proof. destruct c as [[] [] [] [] [] [] [] []]; vm_compute; congruence. Qed.

Lemma stop_not_space (c : ascii) : is_stop c = true -> is_space c = false.
Proof. destruct c as [[] [] [] [] [] [] [] []]; vm_compute; congruence. Qed.

Lemma stop_not_az (c : ascii) : is_stop c = true -> is_az c = false.
Proof. destruct c as [[] [] [] [] [] [] [] []]; vm_compute; congruence. Qed.

Lemma space_not_az (c : ascii) : is_space c = true -> is_az c = false.
Proof. destruct c as [[] [] [] [] [] [] [] []]; vm_compute; congruence. Qed.

(** ** Capitalization *)

Lemma spaces_then_az_some (k : nat) (r : str) (n : nat) :
  spaces_then_az k r = Some n ->
  exists ws c rest,
    r = ws ++ c :: rest /\ Forall (fun x => is_space x = true) ws
    /\ is_az c = true /\ n = S (k + length ws) /\ k + length ws <> 0.
Proof.
  revert k. induction r as [| x r IH]; intros k H; simpl in H; [done |].
  destruct (is_space x) eqn:Hx.
  - apply IH in H as (ws & c & rest & -> & Hws & Hc & -> & Hne).
    exists (x :: ws), c, rest. simpl. repeat split; auto; lia.
  - destruct (is_az x) eqn:Haz; simpl in H; [| done].
    destruct (k =? 0) eqn:Hk; simpl in H; [done |].
    apply Nat.eqb_neq in Hk. injection H as <-.
    exists [], x, r. simpl. repeat split; auto; lia.
Qed.

Lemma m_sentence_start_cases (prev : option ascii) (a : ascii) (r : str) :
  (prev = None /\ is_az a = true /\ m_sentence_start prev (a :: r) = Some 1)
  \/ (is_stop a = true
      /\ exists n, spaces_then_az 0 r = Some n
                   /\ m_sentence_start prev (a :: r) = Some (S n))
  \/ (m_sentence_start prev (a :: r) = None
      /\ (prev = None -> is_az a = false)
      /\ (is_stop a = true -> spaces_then_az 0 r = None)).
Proof.
  unfold m_sentence_start.
  destruct (is_az a) eqn:Haz.
  - rewrite (az_not_stop a Haz). destruct prev; [| by left].
    right; right. repeat split; done.
  - assert ((match prev with Some _ => false | None => false end) = false) as ->
      by by destruct prev.
    destruct (is_stop a) eqn:Hstop.
    + destruct (spaces_then_az 0 r) as [n |] eqn:Hn.
      * right; left. split; [done |]. by exists n.
      * right; right. done.
    + right; right. done.
Qed.

Lemma upper_last_snoc (xs : str) (c : ascii) :
  upper_last (xs ++ [c]) = xs ++ [upper_char c].
Proof.
  unfold upper_last. rewrite length_app. simpl.
  replace (length xs + 1 - 1) with (length xs) by lia.
  by rewrite take_app_length, drop_app_length.
Qed.

Lemma capitalize_from_skip (xs pre s : str) :
  Forall (fun x => is_az x = false) xs ->
  capitalize_from pre (xs ++ s) = xs ++ capitalize_from (rev xs ++ pre) s.
Proof.
  revert pre. induction xs as [| x xs IH]; intros pre H; [done |].
  apply Forall_cons in H as [Hx Hxs]. simpl. rewrite Hx. simpl.
  rewrite IH by done. by rewrite <- app_assoc.
Qed.

Lemma lstrip_spaces_app (xs s : str) :
  Forall (fun x => is_space x = true) xs -> lstrip (xs ++ s) = lstrip s.
Proof.
  induction xs as [| x xs IH]; intros H; [done |].
  apply Forall_cons in H as [Hx Hxs]. simpl. rewrite Hx. by apply IH.
Qed.

Lemma after_stop_spaces (ws pre : str) (a : ascii) :
  ws <> [] -> Forall (fun x => is_space x = true) ws -> is_stop a = true ->
  after_stop (rev ws ++ a :: pre) = true.
Proof.
  intros Hne Hws Ha. unfold after_stop.
  assert (Hrev : Forall (fun x => is_space x = true) (rev ws)).
  { apply Forall_forall. intros x Hx. rewrite Forall_forall in Hws.
    apply Hws. apply list_elem_of_In. apply in_rev. by apply list_elem_of_In. }
  rewrite (lstrip_spaces_app _ _ Hrev). simpl. rewrite (stop_not_space a Ha), Ha.
  destruct (rev ws) as [| x xs] eqn:Hr.
  - apply (f_equal (@rev ascii)) in Hr. rewrite rev_involutive in Hr. done.
  - apply Forall_cons in Hrev as [Hx _]. simpl. by rewrite Hx.
Qed.

Lemma sub_from_capitalize (n : nat) (s pre_rev : str) :
  length s <= n -> scan_invariant pre_rev s ->
  sub_from m_sentence_start upper_last (head pre_rev) s = capitalize_from pre_rev s.
Proof.
  revert s pre_rev. induction n as [| n IH]; intros [| a r] pre_rev Hlen Hinv;
    try reflexivity; simpl in Hlen; [lia |].
  unfold sub_from. rewrite scan_cons.
  destruct (m_sentence_start_cases (head pre_rev) a r)
    as [(Hstart & Haz & ->) | [(Hstop & k & Hk & ->) | (-> & Hfirst & Hnone)]].
  - destruct pre_rev as [| p pre]; [| done].
    simpl. rewrite Haz. simpl. f_equal.
    apply (IH r [a]); [lia |].
    unfold scan_invariant. simpl. rewrite (az_not_space a Haz), (az_not_stop a Haz). done.
  - apply spaces_then_az_some in Hk as (ws & c & rest & -> & Hws & Hc & -> & Hne).
    simpl in Hne |- *.
    replace (S (length ws)) with (length (ws ++ [c])) by (rewrite length_app; simpl; lia).
    replace (ws ++ c :: rest) with ((ws ++ [c]) ++ rest) by (by rewrite <- app_assoc).
    rewrite take_app_length, drop_app_length.
    change (a :: ws ++ [c]) with ((a :: ws) ++ [c]).
    rewrite upper_last_snoc, last_snoc. rewrite (stop_not_az a Hstop). simpl.
    rewrite <- !app_assoc. simpl. f_equal.
    rewrite capitalize_from_skip
      by (eapply Forall_impl; [exact Hws | intros x Hx; by apply space_not_az]).
    f_equal. simpl. rewrite Hc.
    assert (ws <> []) as Hws' by (intros ->; simpl in Hne; lia).
    unfold sentence_start. rewrite (after_stop_spaces ws pre_rev a Hws' Hws Hstop).
    rewrite orb_true_r. simpl. f_equal.
    apply (IH rest (c :: rev ws ++ a :: pre_rev)).
    + rewrite !length_app in Hlen. simpl in Hlen. lia.
    + unfold scan_invariant. simpl. rewrite (az_not_space c Hc), (az_not_stop c Hc). done.
  - simpl. f_equal.
    + destruct (is_az a) eqn:Haz; [| done]. simpl.
      destruct pre_rev as [| p pre]; [by specialize (Hfirst eq_refl) |].
      unfold sentence_start. rewrite bool_decide_eq_false_2 by done. simpl.
      destruct (is_space p) eqn:Hp; [| done]. simpl.
      unfold scan_invariant in Hinv. simpl in Hinv. rewrite Hp in Hinv.
      destruct (lstrip pre) as [| d pre']; [done |].
      destruct (is_stop d) eqn:Hd; [| done].
      specialize (Hinv eq_refl). simpl in Hinv.
      by rewrite (az_not_space a Haz), Haz in Hinv.
    + apply (IH r (a :: pre_rev)); [lia |].
      unfold scan_invariant in *. simpl.
      destruct (is_space a) eqn:Ha.
      * destruct (lstrip pre_rev) as [| d pre']; [done |].
        intros Hd. specialize (Hinv Hd). simpl in Hinv. by rewrite Ha in Hinv.
      * done.
Qed.

Lemma capitalize_from_lookup (pre s : str) (i : nat) :
  capitalize_from pre s !! i
  = (fun c => if is_az c && sentence_start (rev (take i s) ++ pre)
              then upper_char c else c) <$> s !! i.
Proof.
  revert pre i. induction s as [| c r IH]; intros pre [| i]; try reflexivity.
  simpl. rewrite IH. by rewrite <- app_assoc.
Qed.

(** C6 (counterexample). The first letter of " hello" is not the first
    character of the text and stays lowercase, where uppercasing the first
    letter gives " Hello"; the first letter of "(optional) field" stays
    lowercase too; and in "end. (next)" the first letter after the stop
    and the space stays lowercase. *)
Lemma first_letter_not_capitalized :
  normalize_capitalization (lit " hello") = lit " hello"
  /\ upper_first_letter (lit " hello") = lit " Hello"
  /\ normalize_capitalization (lit "(optional) field") = lit "(optional) field"
  /\ normalize_capitalization (lit "end. (next)") = lit "End. (next)".
Proof. vm_compute. repeat split. Qed.

(** C6 (amended). [normalize_capitalization] uppercases a lowercase
    letter [a-z] exactly when it is the first character of the text or
    when the text before it ends with one of [.!?] followed by at least
    one whitespace character, and changes no other character: character
    by character, with the text before position [i] deciding; on the
    sample sentence it gives the expected text. *)
Theorem normalize_capitalization_spec :
  (forall text, normalize_capitalization text = capitalize_sentences text)
  /\ (forall text i,
        normalize_capitalization text !! i
        = (fun c => if is_az c && sentence_start (rev (take i text))
                    then upper_char c else c) <$> text !! i)
  /\ normalize_capitalization (lit "hello world. how are you?")
     = lit "Hello world. How are you?".
Proof.
  assert (H : forall text, normalize_capitalization text = capitalize_sentences text).
  { intros text. unfold normalize_capitalization. rewrite re_sub_sub_from.
    apply (sub_from_capitalize (length text) text []); [lia | exact I]. }
  split; [exact H |]. split.
  - intros text i. rewrite H. unfold capitalize_sentences.
    rewrite capitalize_from_lookup. by rewrite app_nil_r.
  - vm_compute. reflexivity.
Qed.

(** ** Markup spans *)

Lemma ascii_eqb_eq (a b : ascii) : ascii_eqb a b = true <-> a = b.
Proof.
  unfold ascii_eqb, code. rewrite N.eqb_eq. split; [| by intros ->].
  intros H. by rewrite <- (ascii_N_embedding a), <- (ascii_N_embedding b), H.
Qed.

Lemma ascii_eqb_sym (a b : ascii) : ascii_eqb a b = ascii_eqb b a.
Proof. unfold ascii_eqb. apply N.eqb_sym. Qed.

Lemma until_gt_some (r : str) (n : nat) :
  until_gt r = Some n ->
  exists body rest,
    r = body ++ ">"%char :: rest /\ length body = n /\ existsb is_gt body = false.
Proof.
  revert n. induction r as [| c r IH]; intros n H; simpl in H; [done |].
  destruct (ascii_eqb c ">") eqn:Hc.
  - injection H as <-. apply ascii_eqb_eq in Hc as ->. by exists [], r.
  - destruct (until_gt r) as [k |]; simpl in H; [| done]. injection H as <-.
    destruct (IH k eq_refl) as (body & rest & -> & <- & Hb).
    exists (c :: body), rest. simpl. unfold is_gt at 1. by rewrite Hc.
Qed.

Lemma until_gt_none (r : str) : until_gt r = None -> existsb is_gt r = false.
Proof.
  induction r as [| c r IH]; simpl; [done |]. unfold is_gt at 1.
  destruct (ascii_eqb c ">"); [done |].
  destruct (until_gt r); [done |]. intros _. by apply IH.
Qed.

Lemma until_gt_body (body rest : str) :
  existsb is_gt body = false ->
  until_gt (body ++ ">"%char :: rest) = Some (length body).
Proof.
  induction body as [| c body IH]; simpl; [done |]. unfold is_gt at 1.
  destruct (ascii_eqb c ">"); [done |]. simpl. intros H. by rewrite IH.
Qed.

Lemma scan_concat (m : matcher) (n : nat) (s : str) (prev : option ascii) :
  length s <= n -> concat (map seg_text (scan m prev s)) = s.
Proof.
  revert s prev. induction n as [| n IH]; intros [| a r] prev Hlen; simpl in Hlen; try lia.
  - rewrite scan_nil. by destruct (m prev []).
  - rewrite scan_nil. by destruct (m prev []).
  - rewrite scan_cons. destruct (m prev (a :: r)) as [[| k] |]; simpl.
    + f_equal. apply IH. lia.
    + rewrite IH by (rewrite length_drop; lia). by rewrite take_drop.
    + f_equal. apply IH. lia.
Qed.

Lemma scan_tag_no_gt (least : nat) (r : str) (prev : option ascii) :
  until_gt r = None -> seg_has_gt (scan (m_tag least) prev r) = false.
Proof.
  revert prev. induction r as [| c r IH]; intros prev H; [done |].
  simpl in H. destruct (ascii_eqb c ">") eqn:Hc; [done |].
  destruct (until_gt r) eqn:Hr; [done |].
  rewrite scan_cons. simpl. rewrite Hr.
  assert ((if ascii_eqb c "<" then None else None) = @None nat) as ->
    by by destruct (ascii_eqb c "<").
  simpl. unfold is_gt. rewrite Hc. simpl. by apply IH.
Qed.

Lemma scan_tag_ok (n : nat) (s : str) (prev : option ascii) :
  length s <= n -> segs_ok (scan (m_tag 0) prev s) = true.
Proof.
  revert s prev. induction n as [| n IH]; intros [| a r] prev Hlen;
    simpl in Hlen; try lia; try reflexivity.
  rewrite scan_cons. simpl.
  destruct (ascii_eqb a "<") eqn:Ha.
  - destruct (until_gt r) as [k |] eqn:Hr.
    + destruct (decide (0 <= k)); [| lia].
      apply until_gt_some in Hr as (body & rest & -> & <- & Hb).
      replace (body ++ ">"%char :: rest) with ((body ++ [">"%char]) ++ rest)
        by (by rewrite <- app_assoc).
      replace (S (length body)) with (length (body ++ [">"%char]))
        by (rewrite length_app; simpl; lia).
      rewrite take_app_length, drop_app_length. simpl. rewrite Ha. simpl.
      rewrite (until_gt_body body [] Hb), length_app. simpl.
      replace (pred (length body + 1)) with (length body) by lia.
      rewrite bool_decide_eq_true_2 by done. simpl.
      apply IH. rewrite !length_app in Hlen. simpl in Hlen. lia.
    + simpl. rewrite Ha. simpl. rewrite (scan_tag_no_gt 0 r (Some a) Hr). simpl.
      apply IH. lia.
  - simpl. rewrite Ha. simpl. apply IH. lia.
Qed.

Lemma fold_translate_part (model : str -> str) (parts acc : list str) :
  fold_left (translate_part model) parts acc = acc ++ flat_map (part_out model) parts.
Proof.
  revert acc. induction parts as [| p ps IH]; intros acc; simpl.
  - by rewrite app_nil_r.
  - rewrite IH, app_assoc. f_equal.
    unfold translate_part, part_out, tag_like, emit.
    destruct (bool_decide (p = [])); [by rewrite app_nil_r |].
    destruct (startswith (lit "<") p && endswith (lit ">") p); [done |].
    destruct (bool_decide (strip p = [])) eqn:Hs.
    + rewrite bool_decide_eq_false_2; [done |].
      apply bool_decide_eq_true in Hs. by intros H.
    + rewrite bool_decide_eq_true_2 by (by apply bool_decide_eq_false in Hs).
      do 2 f_equal.
      destruct (startswith (lit " ") p), (endswith (lit " ") p);
        simpl; rewrite ?app_nil_r; try done; by rewrite <- ?app_assoc.
Qed.

Lemma endswith_single (x : ascii) (s : str) :
  endswith [x] s = true -> exists s', s = s' ++ [x].
Proof.
  unfold endswith. simpl. destruct (rev s) as [| c r] eqn:Hr; [done |].
  rewrite andb_true_r. intros H. apply ascii_eqb_eq in H as <-.
  exists (rev r). apply (f_equal (@rev ascii)) in Hr.
  rewrite rev_involutive in Hr. by rewrite Hr.
Qed.

Lemma existsb_gt_snoc (p : str) : existsb is_gt (p ++ [">"%char]) = true.
Proof. rewrite existsb_app. simpl. by rewrite orb_true_r. Qed.

Lemma text_not_tag_like (c : ascii) (p : str) :
  (ascii_eqb c "<" = true -> existsb is_gt p = false) -> tag_like (c :: p) = false.
Proof.
  intros H. unfold tag_like. simpl. rewrite andb_true_r, ascii_eqb_sym.
  destruct (ascii_eqb c "<") eqn:Hc; [| done]. simpl.
  specialize (H eq_refl). apply not_true_is_false. intros He.
  change (lit ">") with [">"%char] in He.
  apply endswith_single in He as (s' & Hs').
  apply ascii_eqb_eq in Hc as ->.
  destruct s' as [| x s']; simpl in Hs'; [by injection Hs' |].
  injection Hs' as _ ->. by rewrite existsb_gt_snoc in H.
Qed.

Lemma part_out_text (model : str -> str) (cur : str) :
  match rev cur with
  | c :: p => ascii_eqb c "<" = true -> existsb is_gt p = false
  | [] => True
  end ->
  part_out model (rev cur) = map (emit model) (flush cur).
Proof.
  destruct cur as [| x cur]; [done |].
  unfold flush, part_out.
  destruct (rev (x :: cur)) as [| c p] eqn:Hr.
  - apply (f_equal (@rev ascii)) in Hr. by rewrite rev_involutive in Hr.
  - intros H. rewrite bool_decide_eq_false_2 by done.
    by rewrite (text_not_tag_like c p H).
Qed.

Lemma well_formed_tag_like (t : str) : well_formed_tag t = true -> tag_like t = true.
Proof.
  destruct t as [| c r]; [done |]. simpl. intros H.
  apply andb_true_iff in H as [Hc Hr]. apply bool_decide_eq_true in Hr.
  apply until_gt_some in Hr as (body & rest & -> & Hlen & Hb).
  assert (rest = []) as ->.
  { rewrite length_app in Hlen. simpl in Hlen. destruct rest; [done | simpl in Hlen; lia]. }
  unfold tag_like, endswith. simpl. rewrite rev_app_distr. simpl.
  by rewrite ascii_eqb_sym, Hc.
Qed.

Lemma parts_spans (model : str -> str) (l : list seg) (cur : str) :
  segs_ok l = true -> text_ok cur l ->
  flat_map (part_out model) (split_segs cur l) = map (emit model) (spans_of cur l).
Proof.
  revert cur. induction l as [| [c | t] l IH]; intros cur Hok Hcur; simpl.
  - rewrite app_nil_r. apply part_out_text.
    unfold text_ok in Hcur. destruct (rev cur); [done |]. intros Hc. by apply Hcur.
  - simpl in Hok. apply andb_true_iff in Hok as [Hc Hok].
    apply IH; [done |]. unfold text_ok in *. simpl.
    destruct (rev cur) as [| x p]; simpl.
    + intros Hx. rewrite Hx in Hc. simpl in Hc. split; [done |].
      by apply negb_true_iff in Hc.
    + intros Hx. destruct (Hcur Hx) as [Hp Hg]. simpl in Hg.
      apply orb_false_elim in Hg as [Hg1 Hg2].
      split; [| done]. rewrite existsb_app. simpl. by rewrite Hp, Hg1.
  - simpl in Hok. apply andb_true_iff in Hok as [Ht Hok].
    rewrite map_app. simpl. f_equal.
    + apply part_out_text. unfold text_ok in Hcur.
      destruct (rev cur); [done |]. intros Hc. by destruct (Hcur Hc).
    + rewrite IH by done. f_equal.
      unfold part_out. destruct t as [| x t]; [done |].
      rewrite bool_decide_eq_false_2 by done.
      by rewrite (well_formed_tag_like _ Ht).
Qed.

Lemma spans_of_text (l : list seg) (cur : str) :
  concat (map span_text (spans_of cur l)) = rev cur ++ concat (map seg_text l).
Proof.
  revert cur. induction l as [| [c | t] l IH]; intros cur; simpl.
  - rewrite app_nil_r. destruct cur; [done |]. simpl. by rewrite app_nil_r.
  - rewrite IH. simpl. by rewrite <- app_assoc.
  - rewrite map_app, concat_app. simpl. rewrite IH. simpl. f_equal.
    destruct cur; [done |]. simpl. by rewrite app_nil_r.
Qed.

Lemma spans_of_ok (l : list seg) (cur : str) :
  segs_ok l = true -> forallb span_ok (spans_of cur l) = true.
Proof.
  revert cur. induction l as [| [c | t] l IH]; intros cur Hok; simpl in *.
  - destruct cur as [| x cur]; [done |]. simpl. rewrite andb_true_r.
    apply negb_true_iff, bool_decide_eq_false_2. intros H.
    apply (f_equal (@length ascii)) in H. rewrite length_app in H. simpl in H. lia.
  - apply andb_true_iff in Hok as [_ Hok]. by apply IH.
  - apply andb_true_iff in Hok as [Ht Hok].
    rewrite forallb_app. simpl. rewrite Ht, (IH [] Hok), andb_true_r.
    destruct cur as [| x cur]; [done |]. simpl. rewrite andb_true_r.
    apply negb_true_iff, bool_decide_eq_false_2. intros H.
    apply (f_equal (@length ascii)) in H. rewrite length_app in H. simpl in H. lia.
Qed.

Lemma spans_of_alternating (l : list seg) (cur : str) :
  alternating (spans_of cur l) = true.
Proof.
  revert cur. induction l as [| [c | t] l IH]; intros cur; simpl.
  - by destruct cur.
  - apply IH.
  - specialize (IH []). destruct cur; simpl; by rewrite IH.
Qed.

(** C7. For a text that contains markup, the driver's output is the
    concatenation, in order, of what each span becomes: tags unchanged,
    whitespace-only stretches unchanged without a model call, other
    stretches trimmed, translated and given back one leading and one
    trailing space where they had one.  The spans are well-formed tags
    alternating with non-empty stretches, and together they are the text.
    For "<b>Merhaba</b> dünya" the output has "<b>" before "</b>". *)
Theorem translate_text_with_html_spans (model : str -> str) :
  (forall text,
     contains (lit "<") text = true ->
     translate_text_with_html model text = concat (map (emit model) (spans text))
     /\ concat (map span_text (spans text)) = text
     /\ forallb span_ok (spans text) = true
     /\ alternating (spans text) = true)
  /\ translate_text_with_html model (lit "<b>Merhaba</b> dünya")
     = lit "<b>" ++ strip (model (lit "Merhaba")) ++ lit "</b>"
       ++ lit " " ++ strip (model (lit "dünya")).
Proof.
  split.
  - intros text Hmarkup. unfold translate_text_with_html. rewrite Hmarkup. simpl.
    assert (Hok : segs_ok (re_scan (m_tag 0) text) = true)
      by (apply (scan_tag_ok (length text)); lia).
    unfold spans, re_split. repeat split.
    + rewrite fold_translate_part. simpl. by rewrite parts_spans.
    + rewrite spans_of_text. simpl. apply (scan_concat _ (length text)). lia.
    + by apply spans_of_ok.
    + apply spans_of_alternating.
  - transitivity (concat [lit "<b>"; strip (model (lit "Merhaba")); lit "</b>";
                          lit " " ++ strip (model (lit "dünya"))]).
    + vm_compute. reflexivity.
    + simpl. by rewrite app_nil_r.
Qed.

Lemma translate_text_with_html_spans_witness :
  translate_text_with_html (fun s => lit " [" ++ s ++ lit "] ") (lit "<i>bir</i> <b> iki </b>uc")
  = lit "<i>[bir]</i> <b> [iki] </b>[uc]".
Proof.
  rewrite (proj1 (proj1 (translate_text_with_html_spans _)
                        (lit "<i>bir</i> <b> iki </b>uc") eq_refl)).
  vm_compute. reflexivity.
Defined.

(** ** Whole-word replacement *)

Lemma is_word_lower (a : ascii) : is_word (lower_char a) = is_word a.
Proof. destruct a as [[] [] [] [] [] [] [] []]; vm_compute; reflexivity. Qed.

Lemma ci_eq_word (a b : ascii) :
  ascii_eqb (lower_char a) (lower_char b) = true -> is_word a = is_word b.
Proof.
  intros H. apply ascii_eqb_eq in H.
  by rewrite <- (is_word_lower a), <- (is_word_lower b), H.
Qed.

Lemma last_cons_or (b : ascii) (l : str) :
  last (b :: l) = match last l with Some c => Some c | None => Some b end.
Proof. apply last_cons. Qed.

Lemma tail_ok_unfold (w : str) (prev : option ascii) (s : str) :
  startswith_ci w s
  && boundary (match last (take (length w) s) with Some c => Some c | None => prev end)
              (head (drop (length w) s))
  = tail_ok w prev s.
Proof.
  revert prev s. induction w as [| u0 u IH]; intros prev s; [done |].
  destruct s as [| b s]; [done |]. simpl take. simpl drop. simpl startswith_ci.
  simpl tail_ok. rewrite <- andb_assoc. f_equal.
  rewrite <- IH. f_equal. f_equal. rewrite last_cons_or.
  by destruct (last (take (length u) s)).
Qed.

Lemma m_word_ci_occurs_at (w : str) (prev : option ascii) (s : str) :
  m_word_ci w prev s = if occurs_at w prev s then Some (length w) else None.
Proof.
  unfold m_word_ci, occurs_at. cbv zeta.
  by rewrite <- andb_assoc, tail_ok_unfold.
Qed.

Lemma matches_somewhere_occurs (w : str) (prev : option ascii) (s : str) :
  matches_somewhere (m_word_ci w) prev s = occurs w prev s.
Proof.
  revert prev. induction s as [| a r IH]; intros prev; simpl;
    rewrite m_word_ci_occurs_at; destruct (occurs_at w prev _) eqn:H; simpl;
    try done; apply IH.
Qed.

Lemma tail_ok_startswith (u : str) (x : option ascii) (s : str) :
  tail_ok u x s = true -> startswith_ci u s = true.
Proof.
  revert x s. induction u as [| u0 u IH]; intros x [| b s] H; simpl in *; try done.
  apply andb_true_iff in H as [-> H]. simpl. by apply (IH (Some b)).
Qed.

Lemma startswith_ci_compatible (u d z : str) :
  startswith_ci u (d ++ z) = true -> compatible u d = true.
Proof.
  unfold compatible. revert d. induction u as [| u0 u IH]; intros d H; [done |].
  destruct d as [| d0 d]; [by rewrite orb_true_r |]. simpl in *.
  apply andb_true_iff in H as [H0 H]. rewrite H0. simpl.
  specialize (IH d H). rewrite ascii_eqb_sym, H0. exact IH.
Qed.

Lemma tail_ok_last_word (u : str) (x : option ascii) (s : str) :
  u <> [] -> tail_ok u x s = true ->
  word_of (last (take (length u) s)) = word_of (last u).
Proof.
  revert x s. induction u as [| u0 u IH]; intros x s Hne H; [done |].
  destruct s as [| b s]; [done |]. simpl in H.
  apply andb_true_iff in H as [H0 H]. simpl take.
  destruct u as [| u1 u].
  - simpl. symmetry. by apply ci_eq_word.
  - rewrite last_cons_cons. destruct s as [| b' s]; [done |].
    simpl take. rewrite last_cons_cons.
    by apply (IH (Some b) (b' :: s)).
Qed.

Lemma occurs_prev_word (w' : str) (p p' : option ascii) (s : str) :
  first_is_word w' = true -> word_of p = word_of p' ->
  occurs w' p s = occurs w' p' s.
Proof.
  intros Hw Hp. destruct w' as [| v0 v]; [done |].
  assert (forall s, occurs_at (v0 :: v) p s = occurs_at (v0 :: v) p' s) as Hat.
  { intros s'. unfold occurs_at, boundary. rewrite Hp. f_equal. }
  destruct s; simpl; by rewrite Hat.
Qed.

Lemma occurs_drop (w' : str) (k : nat) (prev : option ascii) (s : str) :
  occurs w' (match last (take k s) with Some x => Some x | None => prev end) (drop k s)
    = true ->
  occurs w' prev s = true.
Proof.
  revert prev s. induction k as [| k IH]; intros prev s H; [by rewrite drop_0 in H |].
  destruct s as [| a r]; [done |].
  simpl take in H. simpl drop in H. rewrite last_cons in H.
  simpl. apply orb_true_iff. right. apply (IH (Some a)).
  by destruct (last (take k r)).
Qed.

Lemma inner_free_occurs (w' d z : str) (p : option ascii) :
  first_is_word w' = true -> inner_free w' (word_of p) d = true ->
  occurs w' p (d ++ z) = true ->
  occurs w' (match last d with Some x => Some x | None => p end) z = true.
Proof.
  intros Hw. revert p. induction d as [| d0 d IH]; intros p Hfree H; [done |].
  simpl in Hfree. apply andb_true_iff in Hfree as [Hhere Hfree].
  rewrite last_cons.
  assert (occurs w' (Some d0) (d ++ z) = true) as Hrest.
  { simpl in H. apply orb_true_iff in H as [Hat | H]; [exfalso | done].
    unfold occurs_at in Hat. apply andb_true_iff in Hat as [Hb Ht].
    destruct w' as [| v0 v]; [done |].
    apply orb_true_iff in Hhere as [Hp | Hc].
    - unfold boundary in Hb. rewrite Hp in Hb. simpl in Hb, Ht.
      apply andb_true_iff in Ht as [H0 _]. apply ci_eq_word in H0.
      unfold first_is_word in Hw. simpl in Hw. rewrite <- H0, Hw in Hb. done.
    - apply tail_ok_startswith in Ht.
      change (d0 :: d ++ z) with ((d0 :: d) ++ z) in Ht.
      apply startswith_ci_compatible in Ht. by rewrite Ht in Hc. }
  specialize (IH (Some d0) Hfree Hrest). by destruct (last d).
Qed.

Section WordSub.
Variables w c : str.
Hypothesis Hw_first : first_is_word w = true.
Hypothesis Hw_last : last_is_word w = true.
Hypothesis Hc_last : last_is_word c = true.

Lemma occurs_at_nil (prev : option ascii) : occurs_at w prev [] = false.
Proof.
  destruct w as [| w0 w']; [done |]. unfold occurs_at. simpl. apply andb_false_r.
Qed.

Lemma occurs_at_word (prev : option ascii) (a : ascii) (r : str) :
  occurs_at w prev (a :: r) = true -> word_of prev = false /\ is_word a = true.
Proof.
  destruct w as [| w0 w']; [done |]. unfold occurs_at, boundary. simpl.
  intros H. apply andb_true_iff in H as [Hb H]. apply andb_true_iff in H as [H0 _].
  apply ci_eq_word in H0. unfold first_is_word in Hw_first. simpl in Hw_first.
  rewrite <- H0, Hw_first in Hb.
  split; [by destruct (word_of prev) | congruence].
Qed.

Lemma sub_word_nil (prev : option ascii) :
  sub_from (m_word_ci w) (fun _ => c) prev [] = [].
Proof.
  unfold sub_from. rewrite scan_nil, m_word_ci_occurs_at. by rewrite occurs_at_nil.
Qed.

Lemma sub_word_cons (prev : option ascii) (a : ascii) (r : str) :
  sub_from (m_word_ci w) (fun _ => c) prev (a :: r)
  = if occurs_at w prev (a :: r)
    then c ++ sub_from (m_word_ci w) (fun _ => c)
                (last (take (length w) (a :: r))) (drop (length w) (a :: r))
    else a :: sub_from (m_word_ci w) (fun _ => c) (Some a) r.
Proof.
  unfold sub_from. rewrite scan_cons, m_word_ci_occurs_at.
  destruct (occurs_at w prev (a :: r)); [| done].
  destruct w as [| w0 w']; [done |]. reflexivity.
Qed.

Lemma straddle_free_tail (u : str) (yw : bool) (x : ascii) (r : str) :
  straddle_free yw u c = true -> is_word x = yw ->
  tail_ok u (Some x) (sub_from (m_word_ci w) (fun _ => c) (Some x) r) = true ->
  tail_ok u (Some x) r = true.
Proof.
  revert yw x r. induction u as [| u0 u IH]; intros yw x r Hfree Hx H.
  - simpl in Hfree. subst yw. simpl in *.
    destruct r as [| b r]; [by rewrite sub_word_nil in H |].
    rewrite sub_word_cons in H.
    destruct (occurs_at w (Some x) (b :: r)) eqn:Hm; [| done].
    apply occurs_at_word in Hm as [Hp _]. simpl in Hp. congruence.
  - simpl in Hfree. apply andb_true_iff in Hfree as [Hhere Hfree].
    destruct r as [| b r]; [by rewrite sub_word_nil in H |].
    rewrite sub_word_cons in H.
    destruct (occurs_at w (Some x) (b :: r)) eqn:Hm.
    + exfalso. apply occurs_at_word in Hm as [Hp _]. simpl in Hp.
      rewrite <- Hx, Hp in Hhere. simpl in Hhere.
      apply tail_ok_startswith, startswith_ci_compatible in H.
      by rewrite H in Hhere.
    + simpl in H |- *. apply andb_true_iff in H as [H0 H]. rewrite H0. simpl.
      apply (IH (is_word u0)); [done | | done].
      symmetry. by apply ci_eq_word.
Qed.

(** A whole-word occurrence of [w'] in the text after replacing [w] by
    [c] was there before, at a place the replacement passed over; so [w']
    is not [w] itself. *)
Lemma occurs_after_sub (w' : str) (n : nat) (s : str) (prev : option ascii) :
  first_is_word w' = true -> inner_free w' false c = true ->
  straddle_free (first_is_word w') (tail w') c = true ->
  length s <= n ->
  occurs w' prev (sub_from (m_word_ci w) (fun _ => c) prev s) = true ->
  occurs w' prev s = true /\ w' <> w.
Proof.
  intros Hw' Hinner Hstr. revert s prev.
  induction n as [| n IH]; intros [| a r] prev Hlen H; simpl in Hlen; try lia.
  - rewrite sub_word_nil in H. split; [done |]. intros ->.
    simpl in H. by rewrite occurs_at_nil in H.
  - rewrite sub_word_nil in H. split; [done |]. intros ->.
    simpl in H. by rewrite occurs_at_nil in H.
  - rewrite sub_word_cons in H.
    destruct (occurs_at w prev (a :: r)) eqn:Hm.
    + pose proof Hm as Hm'. apply occurs_at_word in Hm' as [Hp _].
      apply inner_free_occurs in H; [| done | by rewrite Hp].
      unfold occurs_at in Hm. apply andb_true_iff in Hm as [_ Ht].
      assert (w <> []) as Hne by (by destruct w).
      pose proof (tail_ok_last_word w prev (a :: r) Hne Ht) as Hlast.
      fold (last_is_word w) in Hlast. rewrite Hw_last in Hlast.
      rewrite (occurs_prev_word w' _ (last (take (length w) (a :: r)))) in H.
      * apply IH in H as [H Hneq].
        -- split; [| done]. apply (occurs_drop w' (length w)).
           by destruct (last (take (length w) (a :: r))).
        -- rewrite length_drop. destruct w; [done |]. simpl. lia.
      * done.
      * rewrite Hlast. unfold last_is_word in Hc_last.
        destruct (last c); [done | done].
    + simpl in H. apply orb_true_iff in H as [Hat | H].
      * assert (occurs_at w' prev (a :: r) = true) as Hin.
        { unfold occurs_at in *. apply andb_true_iff in Hat as [Hb Ht].
          simpl in Hb |- *. rewrite Hb. simpl.
          destruct w' as [| v0 v]; [done |]. simpl in Ht |- *.
          apply andb_true_iff in Ht as [H0 Ht]. rewrite H0. simpl.
          apply (straddle_free_tail v (is_word v0)); [done | | done].
          symmetry. by apply ci_eq_word. }
        split; [simpl; by rewrite Hin |]. intros ->. congruence.
      * apply IH in H as [H Hneq]; [| lia]. split; [| done].
        simpl. rewrite H. apply orb_true_r.
Qed.
End WordSub.

Lemma startswith_ci_lower (w s : str) :
  startswith_ci w s = startswith (lower w) (lower s).
Proof.
  revert s. induction w as [| w0 w IH]; intros [| b s]; simpl; try done.
  by rewrite IH.
Qed.

Lemma occurs_contains (w : str) (prev : option ascii) (s : str) :
  occurs w prev s = true -> contains (lower w) (lower s) = true.
Proof.
  revert prev. induction s as [| a r IH]; intros prev H; simpl in H.
  - rewrite orb_false_r in H. unfold occurs_at in H.
    apply andb_true_iff in H as [_ H]. apply tail_ok_startswith in H.
    rewrite startswith_ci_lower in H. simpl in *. by rewrite H.
  - simpl. apply orb_true_iff in H as [H | H].
    + unfold occurs_at in H. apply andb_true_iff in H as [_ H].
      apply tail_ok_startswith in H. rewrite startswith_ci_lower in H.
      simpl in H. by rewrite H.
    + rewrite (IH _ H). apply orb_true_r.
Qed.

Lemma pair_ok_elim (w c w' : str) :
  pair_ok w c w' = true ->
  first_is_word w = true /\ last_is_word w = true /\ last_is_word c = true
  /\ first_is_word w' = true /\ inner_free w' false c = true
  /\ straddle_free (first_is_word w') (tail w') c = true.
Proof. unfold pair_ok. rewrite !andb_true_iff. tauto. Qed.

Lemma sub_keeps_free (w c w' s : str) :
  pair_ok w c w' = true -> occurs w' None s = false ->
  occurs w' None (re_sub (m_word_ci w) (fun _ => c) s) = false.
Proof.
  intros Hok Hfree. apply pair_ok_elim in Hok as (H1 & H2 & H3 & H4 & H5 & H6).
  apply not_true_is_false. intros H. rewrite re_sub_sub_from in H.
  apply (occurs_after_sub w c H1 H2 H3 w' (length s)) in H as [H _]; [congruence | done..].
Qed.

Lemma sub_removes_own (w c s : str) :
  pair_ok w c w = true ->
  occurs w None (re_sub (m_word_ci w) (fun _ => c) s) = false.
Proof.
  intros Hok. apply pair_ok_elim in Hok as (H1 & H2 & H3 & H4 & H5 & H6).
  apply not_true_is_false. intros H. rewrite re_sub_sub_from in H.
  apply (occurs_after_sub w c H1 H2 H3 w (length s)) in H as [_ H]; [done | done..].
Qed.

Lemma apply_fixes_from_free (text0 : str) (fixes : list (str * str)) (s : str) :
  (forall w c, (w, c) ∈ fixes -> occurs w None s = false) ->
  apply_fixes_from text0 fixes s = s.
Proof.
  induction fixes as [| [w c] fixes IH]; intros Hfree; [done |].
  unfold apply_fixes_from in *. simpl.
  assert (re_sub (m_word_ci w) (fun _ => c) s = s) as Hsub.
  { rewrite re_sub_sub_from. apply sub_from_no_match.
    rewrite matches_somewhere_occurs. apply (Hfree w c). by left. }
  rewrite Hsub.
  assert ((if contains w (lower text0) then s else s) = s) as -> by by destruct (contains _ _).
  apply IH. intros w' c' Hin. apply (Hfree w' c'). by right.
Qed.

Lemma apply_fixes_from_clean (text0 : str) (fixes : list (str * str)) :
  forall (done : list str) (s : str),
    (forall w c w', (w, c) ∈ fixes -> w' ∈ done ++ fixes.*1 -> pair_ok w c w' = true) ->
    (forall w c, (w, c) ∈ fixes -> lower w = w) ->
    (forall w', w' ∈ done -> occurs w' None s = false) ->
    (forall w', w' ∈ fixes.*1 -> occurs w' None text0 = false -> occurs w' None s = false) ->
    forall w', w' ∈ done ++ fixes.*1 ->
      occurs w' None (apply_fixes_from text0 fixes s) = false.
Proof.
  induction fixes as [| [w c] fixes IH]; intros done s Hcond Hlower Hdone Hlater w' Hin.
  - simpl in *. rewrite app_nil_r in Hin. by apply Hdone.
  - change (apply_fixes_from text0 ((w, c) :: fixes) s)
      with (apply_fixes_from text0 fixes
              (if contains w (lower text0)
               then re_sub (m_word_ci w) (fun _ => c) s else s)).
    assert (Hin' : w' ∈ (done ++ [w]) ++ fixes.*1)
      by (rewrite <- app_assoc; exact Hin).
    clear Hin. revert w' Hin'. apply IH.
    + intros w1 c1 w1' H1 H1'. apply Hcond; [by right |].
      by rewrite <- app_assoc in H1'.
    + intros w1 c1 H1. apply (Hlower w1 c1). by right.
    + intros w1 H1. apply elem_of_app in H1 as [H1 | H1].
      * destruct (contains w (lower text0)); [| by apply Hdone].
        apply sub_keeps_free; [| by apply Hdone].
        apply Hcond; [by left |]. apply elem_of_app. by left.
      * apply list_elem_of_singleton in H1 as ->.
        destruct (contains w (lower text0)) eqn:Hguard.
        -- apply sub_removes_own. apply Hcond; [by left |].
           apply elem_of_app. right. by left.
        -- apply Hlater; [by left |].
           apply not_true_is_false. intros Hocc. apply occurs_contains in Hocc.
           rewrite (Hlower w c) in Hocc by (by left). congruence.
    + intros w1 H1 H0.
      assert (occurs w1 None s = false) as Hs by (apply Hlater; [by right | done]).
      destruct (contains w (lower text0)); [| done].
      apply sub_keeps_free; [| done].
      apply Hcond; [by left |]. apply elem_of_app. right. by right.
Qed.

Lemma fixes_ok_elim (fixes : list (str * str)) :
  fixes_ok fixes = true ->
  (forall w c w', (w, c) ∈ fixes -> w' ∈ fixes.*1 -> pair_ok w c w' = true)
  /\ (forall w c, (w, c) ∈ fixes -> lower w = w).
Proof.
  unfold fixes_ok. rewrite forallb_forall. intros H. split.
  - intros w c w' Hin Hw'. apply list_elem_of_In in Hin. specialize (H _ Hin).
    simpl in H. apply andb_true_iff in H as [_ H]. rewrite forallb_forall in H.
    apply list_elem_of_fmap in Hw' as ([w1 c1] & -> & Hin').
    apply list_elem_of_In in Hin'. by specialize (H _ Hin').
  - intros w c Hin. apply list_elem_of_In in Hin. specialize (H _ Hin).
    simpl in H. apply andb_true_iff in H as [H _]. by apply bool_decide_eq_true in H.
Qed.

Lemma free_of_forall (fixes : list (str * str)) (s : str) :
  free_of fixes s = true <-> forall w c, (w, c) ∈ fixes -> occurs w None s = false.
Proof.
  unfold free_of. rewrite forallb_forall. split.
  - intros H w c Hin. apply list_elem_of_In in Hin. specialize (H _ Hin).
    by apply negb_true_iff in H.
  - intros H [w c] Hin. apply negb_true_iff, (H w c). by apply list_elem_of_In.
Qed.

(** After one pass no wrong term of the table is left as a whole word. *)
Lemma apply_fixes_free (fixes : list (str * str)) (text : str) :
  fixes_ok fixes = true -> free_of fixes (apply_fixes fixes text) = true.
Proof.
  intros Hok. apply fixes_ok_elim in Hok as [Hcond Hlower].
  apply free_of_forall. intros w c Hin.
  change (apply_fixes fixes text) with (apply_fixes_from text fixes text).
  apply (apply_fixes_from_clean text fixes [] text); simpl; try done.
  - intros w' H. by apply elem_of_nil in H.
  - apply list_elem_of_fmap. by exists (w, c).
Qed.

(** A text without whole-word wrong terms is a fixed point. *)
Lemma apply_fixes_fixed (fixes : list (str * str)) (text : str) :
  free_of fixes text = true -> apply_fixes fixes text = text.
Proof.
  intros H. change (apply_fixes fixes text) with (apply_fixes_from text fixes text).
  apply apply_fixes_from_free. by apply free_of_forall.
Qed.

Lemma common_fixes_ok : fixes_ok common_fixes = true.
Proof. vm_compute. reflexivity. Qed.

(** ** Terminology fixes and idempotence *)

Lemma apply_terminology_fixes_table (t : terminology) (text source_lang target_lang : str) :
  apply_terminology_fixes t text source_lang target_lang = apply_fixes common_fixes text.
Proof. reflexivity. Qed.





(** C9 (counterexample). With "log" registered as a wrong variant of
    "logout", mistake fixing turns "log" into "logout" and, applied to
    that, into "logoutout". *)
Lemma fix_common_mistakes_not_idempotent :
  fix_common_mistakes dict_log (lit "log") english = lit "logout"
  /\ fix_common_mistakes dict_log (fix_common_mistakes dict_log (lit "log") english) english
     = lit "logoutout"
  /\ fix_common_mistakes dict_log (fix_common_mistakes dict_log (lit "log") english) english
     <> fix_common_mistakes dict_log (lit "log") english.
Proof. vm_compute. repeat split. discriminate. Qed.

(** C9 (amended). The terminology-fixing stage is idempotent for every
    text, language pair and dictionary.  The mistake-fixing stage leaves
    its own output unchanged whenever that output contains no known wrong
    variant any more. *)
Theorem fixing_stages_idempotent :
  (forall t text source_lang target_lang,
     apply_terminology_fixes t
       (apply_terminology_fixes t text source_lang target_lang) source_lang target_lang
     = apply_terminology_fixes t text source_lang target_lang)
  /\ (forall t text target_lang,
        check_common_mistakes t (fix_common_mistakes t text target_lang) target_lang = [] ->
        fix_common_mistakes t (fix_common_mistakes t text target_lang) target_lang
        = fix_common_mistakes t text target_lang).
Proof.
  split.
  - intros t text source_lang target_lang. rewrite !apply_terminology_fixes_table.
    apply apply_fixes_fixed, apply_fixes_free, common_fixes_ok.
  - intros t text target_lang Hclean.
    unfold fix_common_mistakes at 1. by rewrite Hclean.
Qed.

Lemma fixing_stages_idempotent_witness :
  fix_common_mistakes dict_login
    (fix_common_mistakes dict_login (lit "Introduction page") english) english
  = fix_common_mistakes dict_login (lit "Introduction page") english.
Proof.
  apply (proj2 fixing_stages_idempotent). vm_compute. reflexivity.
Defined.

(** ** Capitalization, continued *)

Lemma upper_char_not_az (c : ascii) : is_az (upper_char c) = false.
Proof. destruct c as [[] [] [] [] [] [] [] []]; vm_compute; reflexivity. Qed.

Lemma upper_char_class (c : ascii) : same_class c (upper_char c).
Proof. destruct c as [[] [] [] [] [] [] [] []]; vm_compute; split; reflexivity. Qed.

Lemma lower_upper_char (c : ascii) : lower_char (upper_char c) = lower_char c.
Proof. destruct c as [[] [] [] [] [] [] [] []]; vm_compute; reflexivity. Qed.

Lemma lstrip_class (pre pre' : str) :
  Forall2 same_class pre pre' ->
  match lstrip pre with d :: _ => is_stop d | [] => false end
  = match lstrip pre' with d :: _ => is_stop d | [] => false end.
Proof.
  induction 1 as [| a b pre pre' [Hs Ht] _ IH]; [done |].
  simpl. rewrite <- Hs. destruct (is_space a); [exact IH | exact Ht].
Qed.

Lemma sentence_start_class (pre pre' : str) :
  Forall2 same_class pre pre' -> sentence_start pre = sentence_start pre'.
Proof.
  intros H. unfold sentence_start, after_stop.
  pose proof (lstrip_class pre pre' H) as Hl.
  destruct H as [| a b pre pre' [Hs Ht] H]; [done |].
  rewrite !bool_decide_eq_false_2 by done. simpl in *.
  rewrite Hl. by rewrite Hs.
Qed.

Lemma capitalize_from_again (s pre pre' : str) :
  Forall2 same_class pre pre' ->
  capitalize_from pre' (capitalize_from pre s) = capitalize_from pre s.
Proof.
  revert pre pre'. induction s as [| c r IH]; intros pre pre' H; [done |].
  simpl. rewrite <- (sentence_start_class pre pre' H).
  destruct (is_az c && sentence_start pre) eqn:Hc.
  - rewrite upper_char_not_az. simpl. f_equal.
    apply IH. constructor; [apply upper_char_class | done].
  - rewrite Hc. f_equal. apply IH. constructor; [done | done].
Qed.

Lemma capitalize_from_length (s pre : str) :
  length (capitalize_from pre s) = length s.
Proof. revert pre. induction s as [| c r IH]; intros pre; simpl; [done | by rewrite IH]. Qed.

Lemma capitalize_from_lower (s pre : str) :
  lower (capitalize_from pre s) = lower s.
Proof.
  revert pre. induction s as [| c r IH]; intros pre; simpl; [done |].
  unfold lower in IH. rewrite IH. f_equal.
  destruct (is_az c && sentence_start pre); [apply lower_upper_char | done].
Qed.

Lemma normalize_capitalization_capitalize (text : str) :
  normalize_capitalization text = capitalize_sentences text.
Proof.
  unfold normalize_capitalization. rewrite re_sub_sub_from.
  apply (sub_from_capitalize (length text) text []); [lia | exact I].
Qed.

(** X1. Capitalization normalization is idempotent, keeps the length of
    the text and changes nothing but letter case. *)
Theorem normalize_capitalization_idempotent (text : str) :
  normalize_capitalization (normalize_capitalization text) = normalize_capitalization text
  /\ length (normalize_capitalization text) = length text
  /\ lower (normalize_capitalization text) = lower text.
Proof.
  rewrite !normalize_capitalization_capitalize. unfold capitalize_sentences.
  split; [| split].
  - by apply capitalize_from_again.
  - apply capitalize_from_length.
  - apply capitalize_from_lower.
Qed.

(** ** Quality scoring, continued *)

(** X2. A translation needs review exactly when it is blank or its
    penalties (20 per common-mistake hit, 15 when too short, 10 when the
    tags differ) add up to more than 30. *)
Theorem needs_review_threshold (t : terminology) (original translated target_lang : str) :
  let hits := Z.of_nat (length (check_common_mistakes t translated target_lang)) in
  needs_review (calculate_quality_score t original translated target_lang) = true
  <-> is_blank translated = true
      \/ (30 < 20 * hits
               + (if is_too_short original translated then 15 else 0)
               + (if tags_differ original translated then 10 else 0))%Z.
Proof.
  intros hits. subst hits. unfold calculate_quality_score.
  rewrite accumulate_quality_rubric. simpl. rewrite Z.ltb_lt. unfold rubric_score.
  destruct (is_blank translated), (is_too_short _ _), (tags_differ _ _);
    split; intros H; try (left; reflexivity); try lia;
    try (right; lia); destruct H as [H | H]; try discriminate; lia.
Qed.

(** X3. The issue list is empty exactly when the score is 100: every
    rule that lowers the score also records an issue, and no issue is
    recorded without a penalty. *)
Theorem no_issues_iff_full_score (t : terminology) (original translated target_lang : str) :
  let q := calculate_quality_score t original translated target_lang in
  issues q = [] <-> score q = 100%Z.
Proof.
  intros q. subst q. unfold calculate_quality_score.
  rewrite accumulate_quality_rubric. simpl. unfold rubric_score, rubric_issues.
  destruct (check_common_mistakes t translated target_lang) as [| h hs];
    destruct (is_blank translated), (is_too_short _ _), (tags_differ _ _);
    simpl; split; intros H; try done; try lia.
Qed.

Lemma lower_char_idem (c : ascii) : lower_char (lower_char c) = lower_char c.
Proof. destruct c as [[] [] [] [] [] [] [] []]; vm_compute; reflexivity. Qed.

Lemma lower_idem (s : str) : lower (lower s) = lower s.
Proof.
  unfold lower. rewrite map_map. apply map_ext. intros c. apply lower_char_idem.
Qed.

Lemma lower_app (a b : str) : lower (a ++ b) = lower a ++ lower b.
Proof. apply map_app. Qed.

Lemma startswith_app (p s b : str) :
  startswith p s = true -> startswith p (s ++ b) = true.
Proof.
  revert s. induction p as [| x p IH]; intros [| y s] H; simpl in *; try done.
  apply andb_true_iff in H as [-> H]. by apply IH.
Qed.

Lemma contains_app_r (p s b : str) :
  contains p s = true -> contains p (s ++ b) = true.
Proof.
  induction s as [| y s IH]; simpl; intros H.
  - rewrite orb_false_r in H. destruct p; [by destruct b | done].
  - apply orb_true_iff in H as [H | H].
    + change (y :: s ++ b) with ((y :: s) ++ b). by rewrite (startswith_app _ _ _ H).
    + rewrite (IH H). apply orb_true_r.
Qed.

Lemma contains_app_l (p a s : str) :
  contains p s = true -> contains p (a ++ s) = true.
Proof.
  intros H. induction a as [| y a IH]; [done |]. simpl. rewrite IH. apply orb_true_r.
Qed.

Lemma filter_map_sublist {A B : Type} (f : A -> B) (P Q : A -> bool) (l : list A) :
  (forall x, P x = true -> Q x = true) ->
  sublist (map f (filter P l)) (map f (filter Q l)).
Proof.
  intros HPQ. induction l as [| x l IH]; [constructor |].
  rewrite !filter_cons. pose proof (HPQ x) as Hx.
  destruct (P x), (Q x); simpl; try (specialize (Hx eq_refl); discriminate).
  - by apply sublist_skip.
  - by apply sublist_cons.
  - done.
Qed.

(** X4. Common-mistake detection ignores the letter case of the text,
    and in text of 7-bit characters, text added before or after never
    removes a reported mistake: the issues found in a text are, in order,
    among those found in any such text that contains it. *)
Theorem check_common_mistakes_monotone (t : terminology) (pre text post target_lang : str) :
  check_common_mistakes t (lower text) target_lang = check_common_mistakes t text target_lang
  /\ (isascii (pre ++ text ++ post) = true ->
      sublist (check_common_mistakes t text target_lang)
              (check_common_mistakes t (pre ++ text ++ post) target_lang)).
Proof.
  split.
  - unfold check_common_mistakes. by rewrite lower_idem.
  - intros _. rewrite !check_common_mistakes_variants.
    apply filter_map_sublist. intros [c w]. unfold variant_occurs. simpl.
    rewrite !lower_app. intros H. by apply contains_app_l, contains_app_r.
Qed.

Lemma check_common_mistakes_monotone_witness :
  sublist (check_common_mistakes dict_login (lit "Introduction") english)
          (check_common_mistakes dict_login (lit "The introduction page") english).
Proof.
  apply (proj2 (check_common_mistakes_monotone dict_login (lit "The ") (lit "Introduction")
                  (lit " page") english)).
  vm_compute. reflexivity.
Defined.

(** ** Documents, continued *)

Lemma translate_json_hybrid_map (t : terminology) (model : str -> str)
    (source_lang target_lang : str) (data : json) :
  translate_json_hybrid t model source_lang target_lang data
  = json_map (translate_leaf t model source_lang target_lang) data.
Proof.
  induction data as [| b | n | q | s | items IH | members IH] using json_ind;
    simpl; try reflexivity.
  - f_equal. by apply map_ext_Forall.
  - f_equal. apply map_ext_Forall. eapply Forall_impl; [exact IH |].
    intros [k v] H. simpl in H. by rewrite H.
Qed.

Lemma json_map_compose (f g : str -> str) (data : json) :
  json_map g (json_map f data) = json_map (fun s => g (f s)) data.
Proof.
  induction data as [| b | n | q | s | items IH | members IH] using json_ind;
    simpl; try reflexivity.
  - f_equal. rewrite map_map. by apply map_ext_Forall.
  - f_equal. rewrite map_map. apply map_ext_Forall. eapply Forall_impl; [exact IH |].
    intros [k v] H. simpl in H. by rewrite H.
Qed.

Lemma json_map_shape (f : str -> str) (data : json) :
  shape_of (json_map f data) = shape_of data.
Proof.
  induction data as [| b | n | q | s | items IH | members IH] using json_ind;
    simpl; try reflexivity.
  - f_equal. rewrite map_map. by apply map_ext_Forall.
  - f_equal. rewrite map_map. apply map_ext_Forall. eapply Forall_impl; [exact IH |].
    intros [k v] H. simpl in H. by rewrite H.
Qed.

Lemma json_map_fixed (f : str -> str) (data : json) :
  Forall (fun s => f s = s) (string_leaves data) -> json_map f data = data.
Proof.
  induction data as [| b | n | q | s | items IH | members IH] using json_ind;
    simpl; intros H; try reflexivity.
  - apply Forall_cons in H as [-> _]. done.
  - f_equal. induction IH as [| x xs Hx _ IHxs]; [done |].
    simpl in H. apply Forall_app in H as [H1 H2]. simpl.
    by rewrite (Hx H1), (IHxs H2).
  - f_equal. induction IH as [| [k v] xs Hx _ IHxs]; [done |].
    simpl in H, Hx. apply Forall_app in H as [H1 H2]. simpl.
    by rewrite (Hx H1), (IHxs H2).
Qed.

(** X5. The two stages chain: the English document is the input with
    every string leaf translated and post-processed from Turkish, the
    German document is the English document treated the same way from
    English, so each German leaf comes from the processed English leaf;
    both documents have the shape of the input.  When the input cannot be
    read, nothing is produced. *)
Theorem translate_file_hybrid_chain (t : terminology) (tr_en_model en_de_model : str -> str)
    (data : json) :
  let to_english := translate_leaf t tr_en_model turkish english in
  let to_german := translate_leaf t en_de_model english german in
  translate_file_hybrid t tr_en_model en_de_model (Some data)
  = Some (json_map to_english data, json_map (fun s => to_german (to_english s)) data)
  /\ shape_of (json_map to_english data) = shape_of data
  /\ shape_of (json_map (fun s => to_german (to_english s)) data) = shape_of data
  /\ translate_file_hybrid t tr_en_model en_de_model None = None.
Proof.
  intros to_english to_german. unfold translate_file_hybrid.
  rewrite !translate_json_hybrid_map, json_map_compose.
  repeat split; apply json_map_shape.
Qed.

(** X6. A document whose string leaves all come back unchanged from
    translation and post-processing is returned as it is; in particular a
    document without string leaves, whatever the model. *)
Theorem translate_json_hybrid_fixed (t : terminology) (model : str -> str)
    (source_lang target_lang : str) (data : json) :
  Forall (fun s => translate_leaf t model source_lang target_lang s = s) (string_leaves data) ->
  translate_json_hybrid t model source_lang target_lang data = data.
Proof. intros H. rewrite translate_json_hybrid_map. by apply json_map_fixed. Qed.

Lemma translate_json_hybrid_fixed_witness :
  translate_json_hybrid dict_login (fun s => s) english german sample_page = sample_page
  /\ translate_json_hybrid dict_terms (fun s => lit "?" ++ s) turkish english sample_settings
     = sample_settings.
Proof.
  split; apply translate_json_hybrid_fixed.
  - let v := eval vm_compute in (string_leaves sample_page) in
    change (string_leaves sample_page) with v.
    repeat (apply Forall_cons_2; [vm_compute; reflexivity |]).
    apply Forall_nil_2.
  - apply Forall_nil_2.
Defined.

(** ** Missing dictionary *)

Lemma no_terms_unchanged (t : terminology) (text source_lang target_lang : str) :
  (forall key, get_term_translation t key source_lang target_lang = None) ->
  translate_with_terminology t text source_lang target_lang = (text, false).
Proof.
  intros Hnone. unfold translate_with_terminology. rewrite Hnone. simpl.
  destruct (decide _); [| done]. rewrite fold_tokens. simpl.
  replace (existsb snd _) with false; [done |].
  symmetry. apply not_true_is_false. intros Hex.
  apply existsb_exists in Hex as ([w' b] & Hin & Hb). simpl in Hb. subst b.
  apply in_map_iff in Hin as (w & Hw & _).
  unfold translate_token in Hw. by rewrite Hnone in Hw.
Qed.

(** X7. When the dictionary file is missing, every lookup is absent, the
    terminology matcher returns the text unchanged with [False], no
    common mistake is reported or fixed, and post-processing is the
    hardcoded fixes followed by capitalization. *)
Theorem missing_dictionary (original raw text source_lang target_lang : str) :
  let t := load_terminology None in
  get_term_translation t text source_lang target_lang = None
  /\ translate_with_terminology t text source_lang target_lang = (text, false)
  /\ check_common_mistakes t text target_lang = []
  /\ fix_common_mistakes t text target_lang = text
  /\ processed_translation (process_translation t original raw source_lang target_lang)
     = normalize_capitalization (apply_fixes common_fixes raw).
Proof.
  intros t. subst t. simpl load_terminology.
  assert (Hnone : forall key sl tl, get_term_translation empty_terminology key sl tl = None).
  { intros key sl tl. unfold get_term_translation. simpl.
    rewrite !lookup_empty. by repeat destruct (bool_decide _). }
  assert (Hcheck : forall s lang, check_common_mistakes empty_terminology s lang = []).
  { intros s lang. unfold check_common_mistakes. simpl. by rewrite lookup_empty. }
  assert (Hfix : forall s lang, fix_common_mistakes empty_terminology s lang = s).
  { intros s lang. unfold fix_common_mistakes. by rewrite Hcheck. }
  split; [apply Hnone |]. split; [by apply no_terms_unchanged |].
  split; [apply Hcheck |]. split; [apply Hfix |].
  unfold process_translation. simpl. by rewrite Hfix.
Qed.

(** ** Whole-word fixes, continued *)

Lemma lower_cons_inv (s : str) (u0 : ascii) (u : str) :
  lower s = lower (u0 :: u) ->
  exists b s', s = b :: s' /\ lower_char b = lower_char u0 /\ lower s' = lower u.
Proof.
  destruct s as [| b s']; [done |]. simpl. intros H. injection H as H0 H.
  by exists b, s'.
Qed.

Lemma tail_ok_whole (w : str) (x : option ascii) (s : str) :
  lower s = lower w ->
  tail_ok w x s
  = boundary (match last s with Some c => Some c | None => x end) None.
Proof.
  revert x s. induction w as [| u0 u IH]; intros x s H.
  - destruct s; [done | done].
  - apply lower_cons_inv in H as (b & s' & -> & H0 & H). simpl.
    rewrite H0. assert (ascii_eqb (lower_char u0) (lower_char u0) = true) as ->
      by by apply ascii_eqb_eq.
    simpl. rewrite (IH (Some b) s' H), last_cons. by destruct (last s').
Qed.

Lemma last_word_lower (w s : str) :
  lower s = lower w -> word_of (last s) = word_of (last w).
Proof.
  revert s. induction w as [| u0 u IH]; intros s H.
  - by destruct s.
  - apply lower_cons_inv in H as (b & s' & -> & H0 & H).
    assert (is_word b = is_word u0) as Hb
      by (by rewrite <- (is_word_lower b), H0, is_word_lower).
    destruct s' as [| b' s'], u as [| u1 u]; try done.
    rewrite !last_cons_cons. by apply IH.
Qed.

Lemma sub_whole (w c s : str) :
  first_is_word w = true -> last_is_word w = true -> lower s = lower w ->
  re_sub (m_word_ci w) (fun _ => c) s = c.
Proof.
  intros Hfirst Hlast Hs. rewrite re_sub_sub_from.
  assert (Hlen : length s = length w).
  { apply (f_equal (@length ascii)) in Hs. unfold lower in Hs.
    by rewrite !length_map in Hs. }
  destruct w as [| w0 w']; [done |].
  pose proof Hs as Hs'. apply lower_cons_inv in Hs' as (a & r & -> & H0 & Hr).
  rewrite sub_word_cons by done.
  assert (occurs_at (w0 :: w') None (a :: r) = true) as ->.
  { unfold occurs_at. rewrite (tail_ok_whole _ _ _ Hs).
    unfold boundary. simpl word_of at 1 2.
    unfold first_is_word in Hfirst. simpl in Hfirst.
    rewrite <- (is_word_lower a), H0, is_word_lower, Hfirst. simpl.
    pose proof (last_word_lower _ _ Hs) as Hl. unfold last_is_word in Hlast.
    rewrite Hlast in Hl. destruct (last (a :: r)) eqn:Ha; [| done].
    rewrite Hl. done. }
  rewrite <- Hlen, firstn_all, drop_all.
  rewrite sub_word_nil by done. apply app_nil_r.
Qed.

Lemma apply_fixes_from_firing (text0 : str) (fixes : list (str * str)) (s : str) :
  apply_fixes_from text0 fixes s
  = fold_left (fun text '(wrong, correct) =>
                 re_sub (m_word_ci wrong) (fun _ => correct) text)
              (List.filter (fun e => contains e.1 (lower text0)) fixes) s.
Proof.
  revert s. induction fixes as [| [w c] fixes IH]; intros s; [done |].
  change (apply_fixes_from text0 ((w, c) :: fixes) s)
    with (apply_fixes_from text0 fixes
            (if contains w (lower text0)
             then re_sub (m_word_ci w) (fun _ => c) s else s)).
  rewrite IH. simpl. by destruct (contains w (lower text0)).
Qed.

Lemma common_fixes_lone :
  forallb (fun e =>
    bool_decide (List.filter (fun e' => contains e'.1 e.1) common_fixes = [e])
    && first_is_word e.1 && last_is_word e.1 && is_lower e.1) common_fixes = true.
Proof. vm_compute. reflexivity. Qed.

(** X8. A text that is one wrong term of the hardcoded table, in any
    letter case, is replaced by its correction, whatever the language
    pair and the dictionary. *)
Theorem lone_wrong_term_fixed (t : terminology) (source_lang target_lang w c s : str) :
  In (w, c) common_fixes -> lower s = w ->
  apply_terminology_fixes t s source_lang target_lang = c.
Proof.
  intros Hin Hs. rewrite apply_terminology_fixes_table.
  change (apply_fixes common_fixes s) with (apply_fixes_from s common_fixes s).
  rewrite apply_fixes_from_firing, Hs.
  pose proof common_fixes_lone as Hok. rewrite forallb_forall in Hok.
  specialize (Hok _ Hin). cbn [fst] in Hok.
  apply andb_true_iff in Hok as [Hok Hlow]. apply andb_true_iff in Hok as [Hok Hlast].
  apply andb_true_iff in Hok as [Hone Hfirst].
  apply bool_decide_eq_true in Hone. apply bool_decide_eq_true in Hlow.
  rewrite Hone. simpl. apply sub_whole; [done | done | by rewrite Hs, Hlow].
Qed.

Lemma lone_wrong_term_fixed_witness :
  apply_terminology_fixes dict_terms (lit "Mercenary KURDS") turkish english
  = lit "exchange rates".
Proof.
  apply (lone_wrong_term_fixed _ _ _ (lit "mercenary kurds")); vm_compute; auto 10.
Defined.

Lemma same_letter_word (a b : ascii) : same_letter a b -> is_word a = is_word b.
Proof. unfold same_letter. intros H. by rewrite <- (is_word_lower a), H, is_word_lower. Qed.

Lemma head_letters (s s' : str) :
  Forall2 same_letter s s' -> word_of (head s) = word_of (head s').
Proof. destruct 1 as [| a b s s' H _]; [done |]. simpl. by apply same_letter_word. Qed.

Lemma tail_ok_letters (w : str) (x x' : option ascii) (s s' : str) :
  Forall2 same_letter s s' -> word_of x = word_of x' ->
  tail_ok w x s = tail_ok w x' s'.
Proof.
  revert x x' s s'. induction w as [| u0 u IH]; intros x x' s s' Hs Hx; simpl.
  - unfold boundary. by rewrite Hx, (head_letters s s' Hs).
  - destruct Hs as [| a b s s' Hab Hs]; [done |].
    unfold same_letter in Hab. rewrite Hab. f_equal.
    apply IH; [done |]. simpl. by apply same_letter_word.
Qed.

Lemma occurs_letters (w : str) (x x' : option ascii) (s s' : str) :
  Forall2 same_letter s s' -> word_of x = word_of x' ->
  occurs w x s = occurs w x' s'.
Proof.
  intros Hs. revert x x'. induction Hs as [| a b s s' Hab Hs IH]; intros x x' Hx; simpl.
  - unfold occurs_at, boundary. rewrite Hx. f_equal. f_equal. by apply tail_ok_letters.
  - f_equal.
    + unfold occurs_at, boundary. simpl. rewrite Hx, (same_letter_word a b Hab).
      f_equal. apply tail_ok_letters; [by constructor | done].
    + apply IH. simpl. by apply same_letter_word.
Qed.

Lemma capitalize_letters (s pre : str) :
  Forall2 same_letter s (capitalize_from pre s).
Proof.
  revert pre. induction s as [| c r IH]; intros pre; simpl; constructor; [| apply IH].
  unfold same_letter. destruct (is_az c && sentence_start pre); [| done].
  symmetry. apply lower_upper_char.
Qed.

Lemma forallb_Forall_true {A : Type} (f : A -> bool) (l : list A) :
  forallb f l = true <-> Forall (fun x => f x = true) l.
Proof.
  induction l as [| x l IH]; simpl.
  - split; [constructor | done].
  - by rewrite andb_true_iff, IH, Forall_cons.
Qed.

(** A substitution puts nothing into the text but the replacement. *)
Lemma sub_from_Forall (P : ascii -> Prop) (m : matcher) (c : str) (n : nat) :
  forall (s : str) (prev : option ascii),
    length s <= n -> Forall P s -> Forall P c ->
    Forall P (sub_from m (fun _ => c) prev s).
Proof.
  induction n as [| n IH]; intros s prev Hn Hs Hc.
  - destruct s as [| a r]; [| simpl in Hn; lia].
    unfold sub_from. rewrite scan_nil.
    destruct (m prev []); simpl; [by rewrite app_nil_r | constructor].
  - destruct s as [| a r].
    { unfold sub_from. rewrite scan_nil.
      destruct (m prev []); simpl; [by rewrite app_nil_r | constructor]. }
    apply Forall_cons in Hs as [Ha Hr]. simpl in Hn.
    unfold sub_from in *. rewrite scan_cons.
    destruct (m prev (a :: r)) as [[| k] |]; simpl.
    + apply Forall_app. split; [done |]. constructor; [done |].
      apply IH; [lia | done | done].
    + apply Forall_app. split; [done |].
      apply IH; [rewrite length_drop; lia | by apply Forall_drop | done].
    + constructor; [done |]. apply IH; [lia | done | done].
Qed.

Lemma re_sub_isascii (m : matcher) (c s : str) :
  isascii s = true -> isascii c = true -> isascii (re_sub m (fun _ => c) s) = true.
Proof.
  unfold isascii. rewrite !forallb_Forall_true. intros Hs Hc.
  rewrite re_sub_sub_from. by apply (sub_from_Forall _ m c (length s)).
Qed.

Lemma fix_common_mistakes_isascii (t : terminology) (text target_lang : str) :
  plain_dictionary t target_lang = true ->
  isascii text = true ->
  isascii (fix_common_mistakes t text target_lang) = true.
Proof.
  intros Hplain. unfold fix_common_mistakes.
  rewrite check_common_mistakes_variants.
  assert (Hl : Forall (fun e : str * str => isascii e.1 = true)
                 (filter (variant_occurs text) (known_variants t target_lang))).
  { apply forallb_Forall_true in Hplain. rewrite Forall_forall in Hplain.
    apply Forall_forall. intros e [_ He]%list_elem_of_filter.
    specialize (Hplain e He). simpl in Hplain.
    by apply andb_true_iff in Hplain as [[Hc _]%andb_true_iff _]. }
  revert Hl. generalize (filter (variant_occurs text) (known_variants t target_lang)).
  intros l Hl. revert text.
  induction Hl as [| e l He _ IH]; intros s Hs; [done |].
  simpl. apply IH. by apply re_sub_isascii.
Qed.

Lemma apply_fixes_from_isascii (text0 : str) (fixes : list (str * str)) (s : str) :
  Forall (fun e => isascii e.2 = true) fixes ->
  isascii s = true ->
  isascii (apply_fixes_from text0 fixes s) = true.
Proof.
  intros H. rewrite apply_fixes_from_firing. revert s.
  induction H as [| [w c] fixes Hc _ IH]; intros s Hs; [done |].
  simpl in *. destruct (contains w (lower text0)); simpl; [| by apply IH].
  apply IH. by apply re_sub_isascii.
Qed.

Lemma upper_char_isascii (c : ascii) :
  (code c <? 128)%N = true -> (code (upper_char c) <? 128)%N = true.
Proof. destruct c as [[] [] [] [] [] [] [] []]; vm_compute; done. Qed.

Lemma capitalize_from_isascii (pre s : str) :
  isascii s = true -> isascii (capitalize_from pre s) = true.
Proof.
  revert pre. induction s as [| c r IH]; intros pre; simpl; [done |].
  intros [Hc Hr]%andb_true_iff. apply andb_true_iff. split; [| by apply IH].
  destruct (is_az c && sentence_start pre); [by apply upper_char_isascii | done].
Qed.

(** X9. For a raw translation of 7-bit characters and a dictionary whose
    terms for the target language are 7-bit text without backslash, the
    processed translation is 7-bit text again, holds no wrong term of the
    hardcoded table as a whole word, and running the terminology fixes or
    the capitalization on it again changes nothing. *)
Theorem processed_translation_clean (t : terminology)
    (original raw source_lang target_lang : str) :
  isascii raw = true ->
  plain_dictionary t target_lang = true ->
  let processed :=
    processed_translation (process_translation t original raw source_lang target_lang) in
  isascii processed = true
  /\ free_of common_fixes processed = true
  /\ apply_terminology_fixes t processed source_lang target_lang = processed
  /\ normalize_capitalization processed = processed.
Proof.
  intros Hraw Hplain processed. subst processed. unfold process_translation. simpl.
  rewrite apply_terminology_fixes_table.
  split.
  { rewrite normalize_capitalization_capitalize. apply capitalize_from_isascii.
    change (apply_fixes common_fixes (fix_common_mistakes t raw target_lang))
      with (apply_fixes_from (fix_common_mistakes t raw target_lang) common_fixes
              (fix_common_mistakes t raw target_lang)).
    apply apply_fixes_from_isascii.
    - apply forallb_Forall_true. vm_compute. reflexivity.
    - by apply fix_common_mistakes_isascii. }
  set (fixed := apply_fixes common_fixes (fix_common_mistakes t raw target_lang)).
  assert (Hfree : free_of common_fixes (normalize_capitalization fixed) = true).
  { pose proof (apply_fixes_free common_fixes (fix_common_mistakes t raw target_lang)
                  common_fixes_ok) as H.
    fold fixed in H. rewrite free_of_forall in H. apply free_of_forall.
    intros w c Hin. rewrite <- (H w c Hin).
    rewrite normalize_capitalization_capitalize. symmetry.
    apply occurs_letters; [apply capitalize_letters | done]. }
  split; [exact Hfree |]. split.
  - rewrite apply_terminology_fixes_table. by apply apply_fixes_fixed.
  - rewrite !normalize_capitalization_capitalize. unfold capitalize_sentences.
    by apply capitalize_from_again.
Qed.

Lemma processed_translation_clean_witness :
  let processed :=
    processed_translation
      (process_translation dict_login (lit "Giris") (lit "introduction. exit now")
         turkish english) in
  isascii processed = true
  /\ free_of common_fixes processed = true
  /\ apply_terminology_fixes dict_login processed turkish english = processed
  /\ normalize_capitalization processed = processed.
Proof.
  apply (processed_translation_clean dict_login (lit "Giris")
           (lit "introduction. exit now") turkish english);
    vm_compute; reflexivity.
Defined.

(** ** Markup spans, continued *)

Lemma translate_text_with_html_emit (model : str -> str) (text : str) :
  contains (lit "<") text = true ->
  translate_text_with_html model text = concat (map (emit model) (spans text)).
Proof.
  intros Hmarkup. unfold translate_text_with_html. rewrite Hmarkup. simpl.
  unfold spans, re_split. rewrite fold_translate_part. simpl.
  rewrite parts_spans; [done | | done].
  apply (scan_tag_ok (length text)). lia.
Qed.

Lemma spans_concat (text : str) : concat (map span_text (spans text)) = text.
Proof.
  unfold spans. rewrite spans_of_text. simpl. apply (scan_concat _ (length text)). lia.
Qed.

(** X10. The driver consults the model only on the trimmed, non-blank
    stretches of text between tags: two models that agree on those give
    the same output, whatever they do on tags or whitespace. *)
Theorem translate_text_with_html_model_calls (model model' : str -> str) (text : str) :
  contains (lit "<") text = true ->
  Forall (fun sp => needs_model sp = true ->
                    model (strip (span_text sp)) = model' (strip (span_text sp)))
         (spans text) ->
  translate_text_with_html model text = translate_text_with_html model' text.
Proof.
  intros Hmarkup Hagree. rewrite !translate_text_with_html_emit by done.
  f_equal. apply map_ext_Forall. eapply Forall_impl; [exact Hagree |].
  intros [t | s] H; [done |]. simpl in *. unfold is_blank in H.
  destruct (bool_decide (strip s = [])); [done |]. by rewrite H.
Qed.

Lemma translate_text_with_html_model_calls_witness :
  translate_text_with_html (fun s => if bool_decide (s = lit "bir") then lit "one" else lit "?")
                           (lit "<p> bir </p> ")
  = translate_text_with_html (fun s => if bool_decide (s = lit "bir") then lit "one" else lit "!")
                             (lit "<p> bir </p> ").
Proof.
  apply translate_text_with_html_model_calls; [vm_compute; reflexivity |].
  let v := eval vm_compute in (spans (lit "<p> bir </p> ")) in
  change (spans (lit "<p> bir </p> ")) with v.
  repeat (apply Forall_cons_2 || apply Forall_nil_2);
    intros H; vm_compute in H |- *; first [discriminate H | reflexivity].
Defined.

(** X11. A text with markup in which every stretch between tags is
    blank comes back from the driver unchanged, whatever the model. *)
Theorem markup_only_unchanged (model : str -> str) (text : str) :
  contains (lit "<") text = true ->
  existsb needs_model (spans text) = false ->
  translate_text_with_html model text = text.
Proof.
  intros Hmarkup Hblank. rewrite translate_text_with_html_emit by done.
  rewrite <- (spans_concat text) at 2. f_equal. apply map_ext_in.
  intros sp Hin. destruct sp as [t | s]; [done |]. simpl.
  assert (needs_model (Text s) = false) as Hs.
  { apply not_true_is_false. intros H.
    assert (existsb needs_model (spans text) = true) as Hex
      by (apply existsb_exists; by exists (Text s)).
    congruence. }
  simpl in Hs. apply negb_false_iff in Hs. unfold is_blank in Hs. by rewrite Hs.
Qed.

Lemma markup_only_unchanged_witness :
  translate_text_with_html (fun s => lit "never") (lit "<br/> <hr>  <img src=a>")
  = lit "<br/> <hr>  <img src=a>".
Proof. apply markup_only_unchanged; vm_compute; reflexivity. Defined.

(** ** Empty wrong variant *)

Lemma sub_from_empty_pattern (c s : str) (prev : option ascii) :
  sub_from (m_literal_ci []) (fun _ => c) prev s = flat_map (fun a => c ++ [a]) s ++ c.
Proof.
  revert prev. induction s as [| a r IH]; intros prev.
  - unfold sub_from. rewrite scan_nil. simpl. by rewrite app_nil_r.
  - unfold sub_from in *. rewrite scan_cons. simpl.
    rewrite IH. by rewrite <- !app_assoc.
Qed.

Lemma contains_nil (s : str) : contains [] s = true.
Proof. by destruct s. Qed.

(** X12. A wrong variant that is the empty string is reported on every
    text, so the score is at most 80; and when it is the only known
    variant, its correct term holds no backslash and the text is of 7-bit
    characters, fixing puts the correct term before every character and
    at the end of the text. *)
Theorem empty_variant_always_hits (t : terminology) (original text target_lang c : str) :
  In (c, []) (known_variants t target_lang) ->
  In (common_mistake [] c) (check_common_mistakes t text target_lang)
  /\ (score (calculate_quality_score t original text target_lang) <= 80)%Z
  /\ (known_variants t target_lang = [(c, [])] ->
      no_backslash c = true ->
      isascii text = true ->
      fix_common_mistakes t text target_lang = flat_map (fun a => c ++ [a]) text ++ c).
Proof.
  intros Hin.
  assert (Hhit : In (common_mistake [] c) (check_common_mistakes t text target_lang)).
  { rewrite check_common_mistakes_variants. apply in_map_iff. exists (c, []).
    split; [done |]. apply list_elem_of_In, list_elem_of_filter. split.
    - unfold variant_occurs. simpl. by rewrite contains_nil.
    - by apply list_elem_of_In. }
  split; [exact Hhit |]. split.
  - unfold calculate_quality_score. rewrite accumulate_quality_rubric. simpl.
    unfold rubric_score.
    destruct (check_common_mistakes t text target_lang) as [| h hs]; [done |].
    rewrite length_cons.
    destruct (is_blank text), (is_too_short _ _), (tags_differ _ _); lia.
  - intros Honly _ _. unfold fix_common_mistakes.
    rewrite check_common_mistakes_variants, Honly. rewrite filter_cons.
    rewrite decide_True
      by (unfold variant_occurs; simpl; rewrite contains_nil; exact I).
    simpl. rewrite re_sub_sub_from. apply sub_from_empty_pattern.
Qed.

Lemma empty_variant_always_hits_witness :
  fix_common_mistakes dict_empty_variant (lit "ab") english = lit "OKaOKbOK".
Proof.
  apply (proj2 (proj2 (empty_variant_always_hits dict_empty_variant [] (lit "ab")
                         english (lit "OK") (or_introl eq_refl))));
    reflexivity.
Defined.

(** ** Tags seen by the scorer *)

Lemma re_findall_scan (m : matcher) (s : str) :
  re_findall m s = omap tag_hit (scan m None s).
Proof. reflexivity. Qed.

Lemma scan_tag_prev (k : nat) (s : str) (p p' : option ascii) :
  scan (m_tag k) p s = scan (m_tag k) p' s.
Proof. destruct s as [| a r]; [reflexivity |]. by rewrite !scan_cons. Qed.

Lemma scan_lits (k : nat) (s rest : str) (p : option ascii) :
  has_lt s = false ->
  scan (m_tag k) p (s ++ rest) = map Lit s ++ scan (m_tag k) p rest.
Proof.
  revert p. induction s as [| c s IH]; intros p H; [done |].
  simpl in H. apply orb_false_elim in H as [Hc H].
  simpl app. rewrite scan_cons. simpl m_tag. rewrite Hc. simpl.
  f_equal. rewrite (IH (Some c) H). f_equal. apply scan_tag_prev.
Qed.

Lemma well_formed_tag_body (t : str) :
  well_formed_tag t = true ->
  exists body, t = "<"%char :: body ++ [">"%char] /\ existsb is_gt body = false.
Proof.
  destruct t as [| c r]; [done |]. simpl. intros H.
  apply andb_true_iff in H as [Hc Hr]. apply bool_decide_eq_true in Hr.
  apply ascii_eqb_eq in Hc as ->.
  apply until_gt_some in Hr as (body & rest & -> & Hlen & Hb).
  assert (rest = []) as ->.
  { rewrite length_app in Hlen. simpl in Hlen. destruct rest; [done | simpl in Hlen; lia]. }
  by exists body.
Qed.

Lemma scan_tag_piece (body rest : str) (p : option ascii) :
  existsb is_gt body = false ->
  omap tag_hit (scan (m_tag 1) p (("<"%char :: body ++ [">"%char]) ++ rest))
  = (if decide (2 < length ("<"%char :: body ++ [">"%char]))
     then ["<"%char :: body ++ [">"%char]] else [])
    ++ omap tag_hit (scan (m_tag 1) p rest).
Proof.
  intros Hb. simpl app. rewrite scan_cons. simpl m_tag.
  rewrite <- app_assoc. simpl app. rewrite (until_gt_body body rest Hb).
  destruct body as [| b body].
  - rewrite decide_False by (simpl; lia).
    rewrite decide_False by (simpl; lia).
    simpl. exact (f_equal (omap tag_hit) (scan_tag_prev 1 rest (Some ">"%char) p)).
  - rewrite decide_True by (simpl; lia).
    rewrite decide_True by (simpl; rewrite length_app; simpl; lia).
    replace ((b :: body) ++ ">"%char :: rest) with (((b :: body) ++ [">"%char]) ++ rest)
      by (by rewrite <- app_assoc).
    replace (S (length (b :: body))) with (length ((b :: body) ++ [">"%char]))
      by (rewrite length_app; simpl; lia).
    rewrite take_app_length, drop_app_length. simpl. f_equal. f_equal.
    apply scan_tag_prev.
Qed.

Lemma omap_lits (s : str) (l : list seg) :
  omap tag_hit (map Lit s ++ l) = omap tag_hit l.
Proof. induction s as [| c s IH]; [done |]. simpl. exact IH. Qed.

(** The tags found in a text made of well-formed tags and of stretches
    without [<] are its tags with a body. *)
Lemma findall_pieces (sps : list span) (p : option ascii) :
  forallb piece_ok sps = true ->
  omap tag_hit (scan (m_tag 1) p (concat (map span_text sps))) = real_tags sps.
Proof.
  revert p. induction sps as [| [t | s] sps IH]; intros p H; [done | |].
  - simpl in H. apply andb_true_iff in H as [Ht H].
    change (concat (map span_text (Tag t :: sps)))
      with (t ++ concat (map span_text sps)).
    apply well_formed_tag_body in Ht as (body & -> & Hb).
    rewrite (scan_tag_piece body _ p Hb), (IH p H).
    unfold real_tags. simpl omap. by destruct (decide _).
  - simpl in H. apply andb_true_iff in H as [Hs H]. apply negb_true_iff in Hs.
    change (concat (map span_text (Text s :: sps)))
      with (s ++ concat (map span_text sps)).
    rewrite (scan_lits 1 s _ p Hs), omap_lits. by apply IH.
Qed.

Lemma seg_no_gt_until (l : list seg) :
  seg_has_gt l = false -> until_gt (concat (map seg_text l)) = None.
Proof.
  induction l as [| [c | t] l IH]; [done | |]; simpl; intros H; [| done].
  apply orb_false_elim in H as [Hc H]. unfold is_gt in Hc. rewrite Hc.
  by rewrite (IH H).
Qed.

(** The tags found in the original text are the tags with a body among
    the spans the driver cuts it into. *)
Lemma findall_segs (l : list seg) (cur : str) (p : option ascii) :
  segs_ok l = true ->
  omap tag_hit (scan (m_tag 1) p (concat (map seg_text l))) = real_tags (spans_of cur l).
Proof.
  revert cur p. induction l as [| [c | t] l IH]; intros cur p H.
  - simpl. by destruct cur.
  - simpl in H. apply andb_true_iff in H as [Hc H].
    simpl concat. simpl app. rewrite scan_cons. simpl m_tag.
    assert ((if ascii_eqb c "<"
             then match until_gt (concat (map seg_text l)) with
                  | Some n => if decide (1 <= n) then Some (S (S n)) else None
                  | None => None
                  end
             else None) = None) as ->.
    { destruct (ascii_eqb c "<"); [| done]. simpl in Hc.
      apply negb_true_iff in Hc. by rewrite (seg_no_gt_until l Hc). }
    simpl. by apply IH.
  - simpl in H. apply andb_true_iff in H as [Ht H].
    change (concat (map seg_text (Hit t :: l)))
      with (t ++ concat (map seg_text l)).
    apply well_formed_tag_body in Ht as (body & -> & Hb).
    rewrite (scan_tag_piece body _ p Hb), (IH [] p H). simpl spans_of.
    unfold real_tags. rewrite omap_app. simpl omap.
    assert (omap real_tag (flush cur) = []) as -> by by destruct cur.
    by destruct (decide _).
Qed.

Lemma has_lt_false (s : str) :
  has_lt s = false <-> forall c, In c s -> ascii_eqb c "<" = false.
Proof.
  unfold has_lt. split.
  - intros H c Hin. apply not_true_is_false. intros Hc.
    assert (existsb (fun c => ascii_eqb c "<") s = true) as Hex
      by (apply existsb_exists; by exists c).
    congruence.
  - intros H. apply not_true_is_false. intros Hex.
    apply existsb_exists in Hex as (c & Hin & Hc). rewrite (H c Hin) in Hc. done.
Qed.

Lemma lstrip_In (c : ascii) (s : str) : In c (lstrip s) -> In c s.
Proof.
  induction s as [| x s IH]; [done |]. simpl.
  destruct (is_space x); [intros H; right; by apply IH | done].
Qed.

Lemma strip_In (c : ascii) (s : str) : In c (strip s) -> In c s.
Proof.
  unfold strip, rstrip. intros H.
  apply in_rev, lstrip_In in H. rewrite <- in_rev in H. by apply lstrip_In.
Qed.

Lemma lstrip_In_or (c : ascii) (s : str) :
  In c s -> is_space c = true \/ In c (lstrip s).
Proof.
  induction s as [| x s IH]; [done |]. simpl.
  destruct (is_space x) eqn:Hx.
  - intros [<- | H]; [by left | by apply IH].
  - intros H. by right.
Qed.

Lemma strip_nil_spaces (s : str) (c : ascii) :
  strip s = [] -> In c s -> is_space c = true.
Proof.
  unfold strip, rstrip. intros Hnil Hin.
  apply (f_equal (@rev ascii)) in Hnil. rewrite rev_involutive in Hnil. simpl in Hnil.
  apply lstrip_In_or in Hin as [H | Hin]; [done |].
  apply in_rev, lstrip_In_or in Hin as [H | Hin]; [done |].
  by rewrite Hnil in Hin.
Qed.

Lemma emit_no_lt (model : str -> str) (s : str) :
  (forall x, has_lt (model x) = false) -> has_lt (emit model (Text s)) = false.
Proof.
  intros Hmodel. simpl. destruct (bool_decide (strip s = [])) eqn:Hblank.
  - apply bool_decide_eq_true in Hblank. apply has_lt_false. intros c Hin.
    pose proof (strip_nil_spaces s c Hblank Hin) as Hc.
    apply not_true_is_false. intros Heq. apply ascii_eqb_eq in Heq as ->. done.
  - unfold has_lt. rewrite !existsb_app.
    assert (existsb (fun c => ascii_eqb c "<") (strip (model (strip s))) = false) as ->.
    { apply has_lt_false. intros c Hin. apply strip_In in Hin.
      revert c Hin. apply has_lt_false, Hmodel. }
    assert (forall b : bool,
              existsb (fun c => ascii_eqb c "<") (if b then lit " " else []) = false) as Hsp
      by (by intros []).
    by rewrite !Hsp.
Qed.

Lemma contains_lt (s : str) : contains (lit "<") s = has_lt s.
Proof.
  induction s as [| c s IH]; [done |].
  simpl in *. rewrite IH, andb_true_r. f_equal. apply ascii_eqb_sym.
Qed.

Lemma findall_no_lt (s : str) : has_lt s = false -> re_findall (m_tag 1) s = [].
Proof.
  intros H. rewrite re_findall_scan. rewrite <- (app_nil_r s).
  by rewrite (scan_lits 1 s [] None H), omap_lits.
Qed.

Lemma real_tags_image (model : str -> str) (sps : list span) :
  real_tags (map (image model) sps) = real_tags sps.
Proof.
  unfold real_tags. induction sps as [| [t | s] sps IH]; [done | |]; simpl.
  - destruct (decide (2 < length t)); simpl; [f_equal |]; exact IH.
  - exact IH.
Qed.

Lemma piece_ok_image (model : str -> str) (sps : list span) :
  (forall x, has_lt (model x) = false) ->
  forallb span_ok sps = true -> forallb piece_ok (map (image model) sps) = true.
Proof.
  intros Hmodel. induction sps as [| [t | s] sps IH]; [done | |]; simpl; intros H;
    apply andb_true_iff in H as [H1 H2]; rewrite (IH H2), andb_true_r.
  - exact H1.
  - apply negb_true_iff. by apply (emit_no_lt model s).
Qed.

(** X13. When the model never emits a [<], the tags the scorer finds in
    the driver's output are, in order, the tags it finds in the input
    text, so the tag rule of the scorer cannot fire on what the driver
    returns. *)
Theorem driver_keeps_tags (model : str -> str) (text : str) :
  (forall s, has_lt (model s) = false) ->
  re_findall (m_tag 1) (translate_text_with_html model text) = re_findall (m_tag 1) text
  /\ tags_differ text (translate_text_with_html model text) = false.
Proof.
  intros Hmodel.
  assert (Heq : re_findall (m_tag 1) (translate_text_with_html model text)
                = re_findall (m_tag 1) text).
  { destruct (contains (lit "<") text) eqn:Hmarkup.
    - rewrite (translate_text_with_html_emit model text Hmarkup).
      assert (Hok : segs_ok (re_scan (m_tag 0) text) = true)
        by (apply (scan_tag_ok (length text)); lia).
      replace (map (emit model) (spans text))
        with (map span_text (map (image model) (spans text)))
        by (rewrite map_map; apply map_ext; by intros []).
      rewrite re_findall_scan, findall_pieces
        by (apply piece_ok_image; [done | by apply spans_of_ok]).
      rewrite real_tags_image, re_findall_scan.
      rewrite <- (scan_concat (m_tag 0) (length text) text None) at 2 by lia.
      symmetry. by apply findall_segs.
    - unfold translate_text_with_html. rewrite Hmarkup. simpl.
      rewrite contains_lt in Hmarkup. rewrite (findall_no_lt text Hmarkup).
      apply findall_no_lt, has_lt_false. intros c Hin. apply strip_In in Hin.
      revert c Hin. apply has_lt_false, Hmodel. }
  split; [exact Heq |].
  unfold tags_differ, tag_set. rewrite Heq.
  apply bool_decide_eq_false_2. intros H. by apply H.
Qed.

Lemma driver_keeps_tags_witness :
  tags_differ (lit "<b>Merhaba</b> <> d < y")
              (translate_text_with_html (fun _ => lit "x") (lit "<b>Merhaba</b> <> d < y"))
  = false.
Proof.
  apply (proj2 (driver_keeps_tags (fun _ => lit "x") (lit "<b>Merhaba</b> <> d < y")
                  (fun _ => eq_refl))).
Defined.

(** ** Lookups and flags *)

(** X14. A term lookup depends on the text only up to letter case; any
    language pair other than Turkish to English and English to German is
    absent; and a dictionary key that is not lowercase is never found,
    whatever the text. *)
Theorem get_term_translation_lookup (t : terminology) (a b source_lang target_lang : str) :
  (lower a = lower b ->
   get_term_translation t a source_lang target_lang
   = get_term_translation t b source_lang target_lang)
  /\ (~ (source_lang = turkish /\ target_lang = english) ->
      ~ (source_lang = english /\ target_lang = german) ->
      get_term_translation t a source_lang target_lang = None)
  /\ (forall key value,
        lower key <> key ->
        get_term_translation (single_entry key value) a source_lang target_lang = None).
Proof.
  split; [| split].
  - intros H. unfold get_term_translation. by rewrite H.
  - intros H1 H2. unfold get_term_translation.
    by rewrite !bool_decide_eq_false_2.
  - intros key value Hkey. unfold get_term_translation, single_entry. simpl.
    assert (key <> lower a) as Hne by (intros ->; by rewrite lower_idem in Hkey).
    rewrite !lookup_singleton_ne by done. by repeat destruct (bool_decide _).
Qed.

Lemma get_term_translation_lookup_witness :
  get_term_translation (single_entry (lit "Giris") (lit "login")) (lit "Giris") turkish english
  = None.
Proof.
  apply (proj2 (proj2 (get_term_translation_lookup empty_terminology
                         (lit "Giris") [] turkish english))).
  vm_compute. discriminate.
Defined.

(** X15. The flag of [translate_with_terminology] is [False] only with
    the text handed back untouched, and a usable whole-text entry is
    returned as it is with [True], before any token is looked at. *)
Theorem translate_with_terminology_flag (t : terminology) (text source_lang target_lang : str) :
  let result := translate_with_terminology t text source_lang target_lang in
  (result.2 = false -> result.1 = text)
  /\ (forall value,
        get_term_translation t text source_lang target_lang = Some value ->
        value <> [] -> result = (value, true)).
Proof.
  intros result. subst result. unfold translate_with_terminology. split.
  - destruct (truthy _); [done |]. destruct (decide _); [| done].
    rewrite fold_tokens. simpl. by destruct (existsb snd _).
  - intros value Hv Hne. rewrite Hv. by destruct value.
Qed.

Lemma translate_with_terminology_flag_witness :
  translate_with_terminology dict_terms (lit "Giriş") turkish english = (lit "login", true).
Proof.
  apply (proj2 (translate_with_terminology_flag dict_terms (lit "Giriş") turkish english)
               (lit "login")); vm_compute; [reflexivity | discriminate].
Defined.

(** ** Empty model output *)

Lemma contains_empty_text (p : str) : p <> [] -> contains p [] = false.
Proof. by destruct p. Qed.

Lemma lower_nil (w : str) : lower w = [] -> w = [].
Proof. by destruct w. Qed.

Lemma check_common_mistakes_empty (t : terminology) (target_lang : str) :
  Forall (fun e => e.2 <> []) (known_variants t target_lang) ->
  check_common_mistakes t [] target_lang = [].
Proof.
  intros H. rewrite check_common_mistakes_variants.
  induction H as [| [c w] l Hw _ IH]; [done |].
  rewrite filter_cons. rewrite decide_False; [exact IH |].
  unfold variant_occurs. cbn [snd] in *. change (lower []) with (@nil ascii).
  rewrite contains_empty_text; [intros [] |]. intros Hl. by apply lower_nil in Hl.
Qed.

(** X16. When the model returns nothing but whitespace for a text
    without markup, and no wrong variant of the dictionary is the empty
    string, the record has an empty processed translation, is not marked
    improved, scores 0 and needs review. *)
Theorem empty_model_output (t : terminology) (model : str -> str)
    (text source_lang target_lang : str) :
  contains (lit "<") text = false ->
  strip (model text) = [] ->
  Forall (fun e => e.2 <> []) (known_variants t target_lang) ->
  let r := translate_text_hybrid t model text source_lang target_lang in
  raw_translation r = [] /\ processed_translation r = [] /\ improved r = false
  /\ score (quality_of r) = 0%Z /\ needs_review (quality_of r) = true.
Proof.
  intros Hmarkup Hblank Hvariants r. subst r.
  unfold translate_text_hybrid. rewrite Hmarkup, Hblank. simpl.
  unfold process_translation. simpl.
  assert (fix_common_mistakes t [] target_lang = []) as ->
    by (unfold fix_common_mistakes; by rewrite check_common_mistakes_empty).
  rewrite apply_terminology_fixes_table.
  assert (normalize_capitalization (apply_fixes common_fixes []) = []) as ->
    by (vm_compute; reflexivity).
  unfold calculate_quality_score. rewrite accumulate_quality_rubric.
  change (is_blank []) with true. unfold rubric_score. cbn [score needs_review].
  repeat split.
  - destruct (is_too_short _ _), (tags_differ _ _); lia.
  - apply Z.ltb_lt. destruct (is_too_short _ _), (tags_differ _ _); lia.
Qed.

Lemma empty_model_output_witness :
  score (quality_of (translate_text_hybrid dict_login (fun _ => lit "  ")
                       (lit "Merhaba") turkish english)) = 0%Z.
Proof.
  apply (empty_model_output dict_login (fun _ => lit "  ") (lit "Merhaba") turkish english).
  - vm_compute. reflexivity.
  - vm_compute. reflexivity.
  - repeat (apply Forall_cons_2 || apply Forall_nil_2). simpl. discriminate.
Defined.
